(** * Dictofon: a browser voice recorder with AI transcription

    Shallow embedding of the TypeScript sources

    - [types.ts]                       (module [Types])
    - [utils/audioUtils.ts]            (module [AudioUtils])
    - [services/geminiService.ts]      (module [GeminiService])
    - [components/AudioVisualizer.tsx] (module [Visualizer])
    - [components/RecordingItem.tsx]   (module [RecordingItem])
    - [App.tsx]                        (module [App])

    the page as a transition system (module [Page]), and the properties of
    the specification.

    Conventions of the embedding.
    - A JavaScript [number] is a rational ([Q]), the finite doubles being
      those of [JS.is_double].  The division of [formatDuration] rounds to
      the nearest double ([JS.div]); elsewhere arithmetic is exact.
      Millisecond clock readings are [Z].
    - A JavaScript string is a [string] (its bytes in UTF-8).
    - [undefined]/[null] in an optional position is [None].
    - React state is a record; a handler is a function on that record.  The
      constants a handler closes over (the values of the render in which it
      was created) are explicit arguments or fields of a closure record.
    - What the browser does asynchronously (promises settling, media events,
      timers) is an [Event] of the transition system in module [Page]. *)

From Stdlib Require Import QArith Qround Qpower ZArith DecimalString Lqa.
From Stdlib.Strings Require Import Ascii Byte.
From stdpp Require Import base option list strings gmap sorting.

Open Scope string_scope.
Open Scope list_scope.

(* ===================================================================== *)
(** * JavaScript primitives used by the sources                           *)
(* ===================================================================== *)

Module JS.

(** [Math.floor] *)
Definition Math_floor (x : Q) : Z := Qfloor x.

(** The integer part of [x], rounding towards zero. *)
Definition trunc (x : Q) : Z :=
  if Qle_bool 0 x then Qfloor x else Qceiling x.

(** [a % b]: the remainder has the sign of the dividend.  It is computed
    from the exact quotient and is itself a double: nothing is rounded. *)
Definition rem (a b : Q) : Q :=
  (a - b * inject_Z (trunc (a / b)))%Q.

(** ** Doubles *)

(** [2^k] *)
Definition pow2 (k : Z) : Q := (2 ^ k)%Q.

(** The finite values of the type [number]: [M * 2^E] with a significand
    of 53 bits. *)
Definition is_double (x : Q) : Prop :=
  ∃ M E : Z, (x == inject_Z M * pow2 E)%Q ∧ (Z.abs M < 2 ^ 53)%Z ∧
             (-1074 ≤ E ≤ 971)%Z.

(** The binary exponent of [x > 0]: [2^e <= x < 2^(e+1)]. *)
Definition exponent (x : Q) : Z :=
  let e := (Z.log2 (Qnum x) - Z.log2 (Zpos (Qden x)))%Z in
  if Qle_bool (pow2 e) x then e else (e - 1)%Z.

(** The nearest integer, the even one of two equally near. *)
Definition round_half_even (y : Q) : Z :=
  let f := Qfloor y in
  match (y - inject_Z f ?= 1 # 2)%Q with
  | Lt => f
  | Gt => (f + 1)%Z
  | Eq => if Z.even f then f else (f + 1)%Z
  end.

(** The double nearest to [x > 0], ties to even: [x] is rounded to a
    multiple of the unit in the last place of its binade, [2^(e - 52)], or
    of [2^-1074] in the subnormal range. *)
Definition round64_pos (x : Q) : Q :=
  let u := Z.max (exponent x - 52) (-1074) in
  (inject_Z (round_half_even (x / pow2 u)) * pow2 u)%Q.

(** The double nearest to [x] (for [x] below [2^1024] in magnitude: the
    overflow to an infinity is not modelled). *)
Definition round64 (x : Q) : Q :=
  match (x ?= 0)%Q with
  | Eq => 0%Q
  | Gt => round64_pos x
  | Lt => (- round64_pos (- x))%Q
  end.

(** [a / b] on doubles: the exact quotient, rounded. *)
Definition div (a b : Q) : Q := round64 (a / b).

(** ** Printing a number *)

(** All the decimal digits of an integer, a minus sign first when it is
    negative. *)
Definition decimal (n : Z) : string := NilZero.string_of_int (Z.to_int n).

(** The decimal with [k] significant digits that prints the double [x], an
    integer: the multiple of [10^(D - k)] next below [x] or next above it
    (D the number of digits of [x]) that rounds to [x]; of two that do, the
    nearer one, and the one with the even last digit when equally near. *)
Definition candidate (x : Z) (k : nat) : option Z :=
  let D := String.length (decimal x) in
  if decide (k ≤ D)%nat then
    let p := (10 ^ Z.of_nat (D - k))%Z in
    let lo := (x / p)%Z in
    let c1 := (lo * p)%Z in
    let c2 := ((lo + 1) * p)%Z in
    let rounds_to_x c := Qeq_bool (round64 (inject_Z c)) (inject_Z x) in
    match rounds_to_x c1, rounds_to_x c2 with
    | true, true =>
        match (x - c1 ?= c2 - x)%Z with
        | Lt => Some c1
        | Gt => Some c2
        | Eq => if Z.even lo then Some c1 else Some c2
        end
    | true, false => Some c1
    | false, true => Some c2
    | false, false => None
    end
  else None.

Fixpoint search (x : Z) (k fuel : nat) : Z :=
  match fuel with
  | O => x
  | S fuel' =>
      match candidate x k with
      | Some c => c
      | None => search x (S k) fuel'
      end
  end.

(** The decimal with the fewest significant digits that rounds to the
    double [x] (seventeen digits always do). *)
Definition shortest (x : Z) : Z := search x 1 17.

Fixpoint strip_zeros (reversed : string) : string :=
  match reversed with
  | String "0" rest => strip_zeros rest
  | _ => reversed
  end.

(** Exponent notation: the first digit, the other significant digits
    after a point if there are any, and the exponent. *)
Definition exponential (c : Z) : string :=
  let ds := decimal c in
  let n := String.length ds in
  let significant := String.rev (strip_zeros (String.rev ds)) in
  match significant with
  | EmptyString => "0"
  | String d EmptyString => String d "" +:+ "e+" +:+ decimal (Z.of_nat (n - 1))
  | String d rest =>
      String d "" +:+ "." +:+ rest +:+ "e+" +:+ decimal (Z.of_nat (n - 1))
  end.

Definition unsigned_toString (n : Z) : string :=
  if (n <? 2 ^ 53)%Z then decimal n
  else
    let c := shortest n in
    if decide (String.length (decimal c) ≤ 21)%nat then decimal c
    else exponential c.

(** [Number.prototype.toString], and the conversion of a template literal,
    on a double that is an integer.  Below [2^53] all its digits are
    printed (no other integer rounds to it); from there on the shortest
    decimal that rounds to it is, in full up to 21 digits and in exponent
    notation beyond. *)
Definition Number_toString (n : Z) : string :=
  if (n <? 0)%Z then "-" +:+ unsigned_toString (- n) else unsigned_toString n.

(** [k] characters of [pad] repeated, [cur] being what is left of the
    current copy. *)
Fixpoint filler (pad cur : string) (k : nat) : string :=
  match k with
  | O => ""
  | S k' =>
      match cur with
      | String c rest => String c (filler pad rest k')
      | EmptyString =>
          match pad with
          | String c rest => String c (filler pad rest k')
          | EmptyString => ""
          end
      end
  end.

(** [String.prototype.padStart] *)
Definition padStart (targetLength : nat) (padString : string) (s : string)
  : string :=
  if decide (targetLength ≤ String.length s)%nat then s
  else filler padString padString (targetLength - String.length s) +:+ s.

(** [s.split(sep)] for a one-character separator. *)
Fixpoint split (sep : ascii) (s : string) : list string :=
  match s with
  | EmptyString => [""]
  | String c rest =>
      if Ascii.eqb c sep then "" :: split sep rest
      else
        match split sep rest with
        | piece :: pieces => String c piece :: pieces
        | [] => [String c ""]
        end
  end.

(** [s || d] on a string: the empty string is falsy. *)
Definition or_else (s d : string) : string :=
  match s with
  | EmptyString => d
  | _ => s
  end.

(** [s || d] on an optional string: [undefined] and [""] are falsy. *)
Definition opt_or_else (s : option string) (d : string) : string :=
  match s with
  | Some s' => or_else s' d
  | None => d
  end.

(** The value of a byte of a [Uint8Array]. *)
Definition byte_value (b : byte) : Z := Z.of_N (Byte.to_N b).

(** An [Error] (or whatever else was thrown): only its [message] is read. *)
Record Error := { message : option string }.

(** How a promise settles. *)
Inductive Settled (A : Type) :=
| Fulfilled (value : A)
| Rejected (reason : Error).
Arguments Fulfilled {A} value.
Arguments Rejected {A} reason.

End JS.

(* ===================================================================== *)
(** * types.ts                                                            *)
(* ===================================================================== *)

Module Types.

Inductive TranscriptionStatus := IDLE | LOADING | SUCCESS | ERROR.

#[export] Instance TranscriptionStatus_eq_dec : EqDecision TranscriptionStatus.
Proof. solve_decision. Defined.

(** A [Blob]: its bytes and its MIME [type]. *)
Record Blob := { bytes : list byte; type : string }.

Definition size (b : Blob) : nat := length (bytes b).

(** A [File] is a [Blob] with a [name]. *)
Record File := { file_blob : Blob; file_name : string }.

Record Recording := {
  id : string;
  blob : Blob;
  url : string;
  timestamp : Z;
  duration : Q;   (* in seconds *)
  transcript : option string;
  status : TranscriptionStatus;
  error : option string;
  name : option string;
}.

End Types.

(* ===================================================================== *)
(** * The browser's object-URL store                                      *)
(* ===================================================================== *)

Module URL.

(** The blob URL store: the live object URLs and the blob each stands for. *)
Abbreviation Store := (gmap string Types.Blob).

(** [URL.createObjectURL(blob)], [url] being the URL the browser mints. *)
Definition createObjectURL (url : string) (blob : Types.Blob) (store : Store)
  : Store :=
  <[url := blob]> store.

(** [URL.revokeObjectURL(url)] *)
Definition revokeObjectURL (url : string) (store : Store) : Store :=
  delete url store.

End URL.

(* ===================================================================== *)
(** * utils/audioUtils.ts                                                 *)
(* ===================================================================== *)

Module AudioUtils.
Import JS Types.

(** [blobToBase64].  [readAsDataURL] is the browser's [FileReader]: [None]
    when reading fails ([onerror] rejects the promise with the event, which
    carries no message), otherwise the data URL handed to [onloadend].  The
    promise resolves with what follows the first comma, [undefined] when
    there is no comma. *)
Definition blobToBase64 (readAsDataURL : Blob → option string) (blob : Blob)
  : Settled (option string) :=
  match readAsDataURL blob with
  | None => Rejected {| message := None |}
  | Some result =>
      let base64 := split "," result !! 1%nat in
      Fulfilled base64
  end.

(** What the [<audio>] element reports for the source it was given. *)
Inductive MediaDuration := Finite (d : Q) | Infinity.

Inductive MetadataOutcome :=
| loadedmetadata (d : MediaDuration)
| mediaerror.

(** [getAudioDuration], first half: the object URL made for the probe. *)
Definition getAudioDuration_begin (url : string) (blob : Blob)
    (store : URL.Store) : URL.Store :=
  URL.createObjectURL url blob store.

(** [getAudioDuration], second half: [onloadedmetadata] or [onerror].  Both
    revoke the probe's URL; the promise always resolves. *)
Definition getAudioDuration_settle (url : string) (o : MetadataOutcome)
    (store : URL.Store) : URL.Store * Q :=
  match o with
  | loadedmetadata d =>
      let store := URL.revokeObjectURL url store in
      let duration := match d with Infinity => 0%Q | Finite d => d end in
      (store, duration)
  | mediaerror =>
      let store := URL.revokeObjectURL url store in
      (store, 0%Q)
  end.

(** [formatDuration] on a finite number of seconds ([getAudioDuration]
    turns an infinite duration into [0]). *)
Definition formatDuration (seconds : Q) : string :=
  let mins := Math_floor (div seconds 60) in
  let secs := Math_floor (rem seconds 60) in
  Number_toString mins +:+ ":" +:+ padStart 2 "0" (Number_toString secs).

End AudioUtils.

(* ===================================================================== *)
(** * services/geminiService.ts                                           *)
(* ===================================================================== *)

Module GeminiService.
Import JS Types.

Record InlineData := { mimeType : string; data : option string }.

Inductive Part :=
| inlineData (d : InlineData)
| text (t : string).

(** The argument of [ai.models.generateContent]. *)
Record GenerateContentParameters := {
  model : string;
  parts : list Part;
  temperature : Q;
}.

(** Of the response only [response.text] is read. *)
Record GenerateContentResponse := { response_text : option string }.

(** The collaborators of [transcribeAudio]: the file reader behind
    [blobToBase64] and the hosted endpoint. *)
Record Environment := {
  readAsDataURL : Blob → option string;
  generateContent :
    GenerateContentParameters → Settled GenerateContentResponse;
}.

(** An asynchronous computation: the requests it sent to the endpoint, in
    order, and how its promise settles. *)
Definition Async (A : Type) : Type :=
  list GenerateContentParameters * Settled A.

#[export] Instance Async_ret : MRet Async := λ A a, ([], Fulfilled a).

#[export] Instance Async_bind : MBind Async := λ A B k m,
  match m with
  | (sent, Fulfilled a) => let '(sent', r) := k a in (sent ++ sent', r)
  | (sent, Rejected e) => (sent, Rejected e)
  end.

(** [await p] for a promise that sends nothing itself. *)
Definition await {A} (p : Settled A) : Async A := ([], p).

(** [throw e] *)
Definition throw {A} (e : Error) : Async A := ([], Rejected e).

(** [try { body } catch (error) { handler }] *)
Definition try_catch {A} (body : Async A) (handler : Error → Async A)
  : Async A :=
  match body with
  | (sent, Rejected e) => let '(sent', r) := handler e in (sent ++ sent', r)
  | done => done
  end.

(** [await ai.models.generateContent(params)] *)
Definition call (env : Environment) (params : GenerateContentParameters)
  : Async GenerateContentResponse :=
  ([params], generateContent env params).

Definition PROMPT : string :=
  "Пожалуйста, сделай точную транскрипцию этой аудиозаписи. Отформатируй вывод с четкими разрывами абзацев там, где есть естественные паузы. Не добавляй никаких вводных или заключительных замечаний, только текст транскрипции.".

Definition transcribeAudio (env : Environment) (audioBlob : Blob)
  : Async string :=
  try_catch
    (base64Audio ← await (AudioUtils.blobToBase64 (readAsDataURL env) audioBlob);
     let mimeType := or_else (type audioBlob) "audio/webm" in
     response ← call env {|
       model := "gemini-2.5-flash";
       parts := [ inlineData {| mimeType := mimeType; data := base64Audio |};
                  text PROMPT ];
       temperature := 0.2;
     |};
     mret (opt_or_else (response_text response) "Транскрипция не создана."))
    (λ error,
       (* console.error("Transcription error:", error) *)
       throw {| message :=
         Some (opt_or_else (message error) "Не удалось транскрибировать аудио.") |}).

End GeminiService.

(* ===================================================================== *)
(** * components/AudioVisualizer.tsx                                      *)
(* ===================================================================== *)

Module Visualizer.
Import JS.

(** [ctx.createLinearGradient(x0, y0, x1, y1)] with its colour stops. *)
Record Gradient := {
  x0 : Q; y0 : Q; x1 : Q; y1 : Q;
  stops : list (Q * string);
}.

(** The calls made on the 2D context, in order. *)
Inductive CanvasOp :=
| clearRect (x y w h : Q)
| fillStyle (g : Gradient)
| beginPath
| roundRect (x y w h radii : Q)
| fill.

(** The body of the [for] loop of [draw], from the bin at the head of
    [dataArray] on, [x] being the left edge of that bin's bar. *)
Fixpoint bars (height barWidth : Q) (dataArray : list byte) (x : Q)
  : list CanvasOp :=
  match dataArray with
  | [] => []
  | b :: rest =>
      let barHeight := (inject_Z (byte_value b) / 1.5)%Q in (* Scale down height *)
      let gradient := {|
        x0 := 0; y0 := height; x1 := 0; y1 := (height - barHeight)%Q;
        stops := [ (0%Q, "#6366f1"); (1%Q, "#a855f7") ];
      |} in
      fillStyle gradient ::
      (if negb (Qle_bool barHeight 0)
       then [ beginPath;
              roundRect x (height - barHeight)%Q barWidth barHeight 4;
              fill ]
       else []) ++
      bars height barWidth rest (x + (barWidth + 1))%Q
  end.

(** One call of [draw]: [dataArray] is the [Uint8Array] as
    [analyser.getByteFrequencyData] has just filled it, [width] and [height]
    are the canvas's.  [None]: the early return when not recording; otherwise
    the next frame is requested and these calls are made on the context. *)
Definition draw (isRecording : bool) (width height : Q)
    (dataArray : list byte) : option (list CanvasOp) :=
  if negb isRecording then None
  else
    let bufferLength := length dataArray in
    let barWidth := (width / inject_Z (Z.of_nat bufferLength) * 2.5)%Q in
    Some (clearRect 0 0 width height :: bars height barWidth dataArray 0).

End Visualizer.

(* ===================================================================== *)
(** * components/RecordingItem.tsx                                        *)
(* ===================================================================== *)

Module RecordingItem.
Import Types.

(** The click handler of the transcribe button of one item.  [recording]
    and [onTranscribe] are the item's props; [W] is what the callback acts
    on. *)
Definition handleTranscribe {W : Type} (recording : Recording)
    (onTranscribe : string → W → W) : W → W :=
  if decide (status recording = IDLE ∨ status recording = ERROR)
  then onTranscribe (id recording)
  else λ w, w.

End RecordingItem.

(* ===================================================================== *)
(** * App.tsx                                                             *)
(* ===================================================================== *)

Module App.
Import JS Types.

(** A [MediaStream] is an opaque handle. *)
Definition MediaStream := nat.

(** The component's [useState] variables. *)
Record State := {
  isRecording : bool;
  recordings : list Recording;
  recordingTime : Q;
  mediaStream : option MediaStream;
  permissionError : option string;
}.

(** A [MediaRecorder] made by [startRecording]: what the [onstop] handler
    assigned to it closes over.  [recordingTime] is a constant of the render
    in which that [startRecording] was created. *)
Record MediaRecorder := {
  closure_recordingTime : Q;
  closure_stream : MediaStream;
}.

(** The component's [useRef] cells ([fileInputRef] aside). *)
Record Refs := {
  mediaRecorderRef : option MediaRecorder;
  chunksRef : list Blob;
  timerRef : option nat;
}.

(** The browser around the component. *)
Record Browser := {
  (** [Date.now()], in milliseconds *)
  now : Z;
  (** the live object URLs *)
  objectURLs : URL.Store;
  (** the running intervals: identifier, and the [startTime] the callback
      closes over *)
  intervals : list (nat * Z);
  nextInterval : nat;
  (** the [getUserMedia] calls awaited by [startRecording], each with the
      [recordingTime] of the render its [startRecording] belongs to *)
  userMediaCalls : list Q;
  (** [stop] events fired by [MediaRecorder.stop()], not yet delivered *)
  stopEvents : list MediaRecorder;
  (** the [getAudioDuration] calls awaited by [handleFileChange]: the file
      and the probe's object URL *)
  metadataLoads : list (File * string);
  (** the [transcribeAudio] calls awaited by [handleTranscribe]: the [id]
      argument and the blob sent *)
  transcriptions : list (string * Blob);
}.

Record World := { state : State; refs : Refs; browser : Browser }.

(** ** Assignments *)

Definition on_state (f : State → State) (w : World) : World :=
  {| state := f (state w); refs := refs w; browser := browser w |}.
Definition on_refs (f : Refs → Refs) (w : World) : World :=
  {| state := state w; refs := f (refs w); browser := browser w |}.
Definition on_browser (f : Browser → Browser) (w : World) : World :=
  {| state := state w; refs := refs w; browser := f (browser w) |}.

Definition setIsRecording (v : bool) : World → World :=
  on_state (λ s, {| isRecording := v; recordings := recordings s;
    recordingTime := recordingTime s; mediaStream := mediaStream s;
    permissionError := permissionError s |}).
(** [setRecordings(prev => f(prev))] *)
Definition setRecordings (f : list Recording → list Recording)
  : World → World :=
  on_state (λ s, {| isRecording := isRecording s;
    recordings := f (recordings s);
    recordingTime := recordingTime s; mediaStream := mediaStream s;
    permissionError := permissionError s |}).
Definition setRecordingTime (v : Q) : World → World :=
  on_state (λ s, {| isRecording := isRecording s; recordings := recordings s;
    recordingTime := v; mediaStream := mediaStream s;
    permissionError := permissionError s |}).
Definition setMediaStream (v : option MediaStream) : World → World :=
  on_state (λ s, {| isRecording := isRecording s; recordings := recordings s;
    recordingTime := recordingTime s; mediaStream := v;
    permissionError := permissionError s |}).
Definition setPermissionError (v : option string) : World → World :=
  on_state (λ s, {| isRecording := isRecording s; recordings := recordings s;
    recordingTime := recordingTime s; mediaStream := mediaStream s;
    permissionError := v |}).

Definition set_mediaRecorderRef (v : option MediaRecorder) : World → World :=
  on_refs (λ r, {| mediaRecorderRef := v; chunksRef := chunksRef r;
    timerRef := timerRef r |}).
Definition set_chunksRef (v : list Blob) : World → World :=
  on_refs (λ r, {| mediaRecorderRef := mediaRecorderRef r; chunksRef := v;
    timerRef := timerRef r |}).
Definition set_timerRef (v : option nat) : World → World :=
  on_refs (λ r, {| mediaRecorderRef := mediaRecorderRef r;
    chunksRef := chunksRef r; timerRef := v |}).

Definition set_now (v : Z) : World → World :=
  on_browser (λ b, {| now := v; objectURLs := objectURLs b;
    intervals := intervals b; nextInterval := nextInterval b;
    userMediaCalls := userMediaCalls b; stopEvents := stopEvents b;
    metadataLoads := metadataLoads b; transcriptions := transcriptions b |}).
Definition set_objectURLs (v : URL.Store) : World → World :=
  on_browser (λ b, {| now := now b; objectURLs := v;
    intervals := intervals b; nextInterval := nextInterval b;
    userMediaCalls := userMediaCalls b; stopEvents := stopEvents b;
    metadataLoads := metadataLoads b; transcriptions := transcriptions b |}).
Definition set_intervals (v : list (nat * Z)) (next : nat) : World → World :=
  on_browser (λ b, {| now := now b; objectURLs := objectURLs b;
    intervals := v; nextInterval := next;
    userMediaCalls := userMediaCalls b; stopEvents := stopEvents b;
    metadataLoads := metadataLoads b; transcriptions := transcriptions b |}).
Definition set_userMediaCalls (v : list Q) : World → World :=
  on_browser (λ b, {| now := now b; objectURLs := objectURLs b;
    intervals := intervals b; nextInterval := nextInterval b;
    userMediaCalls := v; stopEvents := stopEvents b;
    metadataLoads := metadataLoads b; transcriptions := transcriptions b |}).
Definition set_stopEvents (v : list MediaRecorder) : World → World :=
  on_browser (λ b, {| now := now b; objectURLs := objectURLs b;
    intervals := intervals b; nextInterval := nextInterval b;
    userMediaCalls := userMediaCalls b; stopEvents := v;
    metadataLoads := metadataLoads b; transcriptions := transcriptions b |}).
Definition set_metadataLoads (v : list (File * string)) : World → World :=
  on_browser (λ b, {| now := now b; objectURLs := objectURLs b;
    intervals := intervals b; nextInterval := nextInterval b;
    userMediaCalls := userMediaCalls b; stopEvents := stopEvents b;
    metadataLoads := v; transcriptions := transcriptions b |}).
Definition set_transcriptions (v : list (string * Blob)) : World → World :=
  on_browser (λ b, {| now := now b; objectURLs := objectURLs b;
    intervals := intervals b; nextInterval := nextInterval b;
    userMediaCalls := userMediaCalls b; stopEvents := stopEvents b;
    metadataLoads := metadataLoads b; transcriptions := v |}).

(** [URL.createObjectURL] and [URL.revokeObjectURL] on the world's store. *)
Definition createObjectURL (url : string) (blob : Blob) (w : World) : World :=
  set_objectURLs (URL.createObjectURL url blob (objectURLs (browser w))) w.

(** [window.setInterval]: the new interval's identifier (never [0]). *)
Definition setInterval (startTime : Z) (w : World) : nat * World :=
  let t := nextInterval (browser w) in
  (t, set_intervals (intervals (browser w) ++ [(t, startTime)]) (S t) w).

Definition clearInterval (t : nat) (w : World) : World :=
  set_intervals (filter (λ i, i.1 ≠ t) (intervals (browser w)))
    (nextInterval (browser w)) w.

(** ** Recording *)

(** [startRecording] up to [await getUserMedia].  The [recordingTime] in
    scope is the one of the current render. *)
Definition startRecording (w : World) : World :=
  let recordingTime := recordingTime (state w) in
  let w := setPermissionError None w in
  set_userMediaCalls (userMediaCalls (browser w) ++ [recordingTime]) w.

(** The interval callback started by [startRecording]. *)
Definition timer_callback (startTime : Z) (w : World) : World :=
  setRecordingTime (inject_Z (now (browser w) - startTime) / 1000)%Q w.

(** [startRecording] from the [await] on: [granted] is the stream, or [None]
    when [getUserMedia] throws (the [catch] branch). *)
Definition startRecording_resume (recordingTime : Q)
    (granted : option MediaStream) (w : World) : World :=
  match granted with
  | Some stream =>
      let w := setMediaStream (Some stream) w in
      let mediaRecorder :=
        {| closure_recordingTime := recordingTime;
           closure_stream := stream |} in
      let w := set_mediaRecorderRef (Some mediaRecorder) w in
      let w := set_chunksRef [] w in
      (* mediaRecorder.start() *)
      let w := setIsRecording true w in
      (* Start timer *)
      let startTime := now (browser w) in
      let '(t, w) := setInterval startTime w in
      set_timerRef (Some t) w
  | None =>
      (* console.error("Error accessing microphone:", err) *)
      setPermissionError
        (Some "Доступ к микрофону запрещен. Пожалуйста, разрешите доступ для записи.")
        w
  end.

(** [mediaRecorder.ondataavailable] *)
Definition ondataavailable (data : Blob) (w : World) : World :=
  if decide (0 < size data)%nat
  then set_chunksRef (chunksRef (refs w) ++ [data]) w
  else w.

(** [new Blob(chunks, { type })] *)
Definition new_Blob (chunks : list Blob) (type : string) : Blob :=
  {| bytes := concat (bytes <$> chunks); type := type |}.

(** [mediaRecorder.onstop] of the recorder [mediaRecorder]; [uuid] is what
    [uuidv4()] returns and [url] the object URL the browser mints. *)
Definition onstop (mediaRecorder : MediaRecorder) (uuid url : string)
    (w : World) : World :=
  let blob := new_Blob (chunksRef (refs w)) "audio/webm" in
  let w := createObjectURL url blob w in
  let duration := closure_recordingTime mediaRecorder in
    (* Approximate duration based on timer *)
  let newRecording := {|
    id := uuid;
    blob := blob;
    url := url;
    timestamp := now (browser w);
    duration := duration;
    transcript := None;
    status := IDLE;
    error := None;
    name := None;
  |} in
  let w := setRecordings (λ prev, newRecording :: prev) w in
  let w := setRecordingTime 0 w in
  (* Stop all tracks to release microphone *)
  setMediaStream None w.

(** [stopRecording].  [MediaRecorder.stop()] fires the recorder's [stop]
    event later. *)
Definition stopRecording (w : World) : World :=
  match mediaRecorderRef (refs w), isRecording (state w) with
  | Some mediaRecorder, true =>
      let w := set_stopEvents (stopEvents (browser w) ++ [mediaRecorder]) w in
      let w := setIsRecording false w in
      match timerRef (refs w) with
      | Some t =>
          if decide (t ≠ 0)%nat
          then set_timerRef None (clearInterval t w)
          else w
      | None => w
      end
  | _, _ => w
  end.

(** ** Uploading a file *)

(** [handleFileChange] up to [await getAudioDuration(file)]; [probe] is the
    object URL minted inside [getAudioDuration]. *)
Definition handleFileChange (file : option File) (probe : string)
    (w : World) : World :=
  match file with
  | None => w
  | Some file =>
      let w := set_objectURLs
        (AudioUtils.getAudioDuration_begin probe (file_blob file)
           (objectURLs (browser w))) w in
      set_metadataLoads (metadataLoads (browser w) ++ [(file, probe)]) w
  end.

(** [handleFileChange] from the [await] on. *)
Definition handleFileChange_resume (file : File) (probe : string)
    (o : AudioUtils.MetadataOutcome) (uuid url : string) (w : World)
  : World :=
  let '(store, duration) :=
    AudioUtils.getAudioDuration_settle probe o (objectURLs (browser w)) in
  let w := set_objectURLs store w in
  let w := createObjectURL url (file_blob file) w in
  let newRecording := {|
    id := uuid;
    blob := file_blob file;
    url := url;
    timestamp := now (browser w);
    duration := duration;
    transcript := None;
    status := IDLE;
    error := None;
    name := Some (file_name file);
  |} in
  setRecordings (λ prev, newRecording :: prev) w.

(** ** Transcription *)

(** [prev.map(r => r.id === id ? { ...r, status: LOADING, error: undefined } : r)] *)
Definition markLoading (id0 : string) (prev : list Recording)
  : list Recording :=
  (λ r, if decide (id r = id0)
        then {| id := id r; blob := blob r; url := url r;
                timestamp := timestamp r; duration := duration r;
                transcript := transcript r;
                status := LOADING; error := None;
                name := name r |}
        else r) <$> prev.

(** [prev.map(r => r.id === id ? { ...r, status: SUCCESS, transcript } : r)] *)
Definition markSuccess (id0 : string) (text : string)
    (prev : list Recording) : list Recording :=
  (λ r, if decide (id r = id0)
        then {| id := id r; blob := blob r; url := url r;
                timestamp := timestamp r; duration := duration r;
                transcript := Some text;
                status := SUCCESS; error := error r;
                name := name r |}
        else r) <$> prev.

Definition TRANSCRIPTION_FAILED : string := "Не удалось транскрибировать.".

(** [prev.map(r => r.id === id ? { ...r, status: ERROR, error: "..." } : r)] *)
Definition markError (id0 : string) (prev : list Recording)
  : list Recording :=
  (λ r, if decide (id r = id0)
        then {| id := id r; blob := blob r; url := url r;
                timestamp := timestamp r; duration := duration r;
                transcript := transcript r;
                status := ERROR; error := Some TRANSCRIPTION_FAILED;
                name := name r |}
        else r) <$> prev.

(** [handleTranscribe] up to [await transcribeAudio(recording.blob)].
    [recordings] is the list of the render the handler belongs to. *)
Definition handleTranscribe (recordings : list Recording) (id0 : string)
    (w : World) : World :=
  match List.find (λ r, bool_decide (id r = id0)) recordings with
  | None => w
  | Some recording =>
      (* Update status to LOADING *)
      let w := setRecordings (markLoading id0) w in
      set_transcriptions
        (transcriptions (browser w) ++ [(id0, blob recording)]) w
  end.

(** [handleTranscribe] from the [await] on: the [try] continues when the
    promise is fulfilled, the [catch] runs when it is rejected. *)
Definition handleTranscribe_resume (id0 : string) (result : Settled string)
    (w : World) : World :=
  match result with
  | Fulfilled transcript => setRecordings (markSuccess id0 transcript) w
  | Rejected _ => setRecordings (markError id0) w
  end.

(** ** Deletion *)

Definition handleDelete (id0 : string) (w : World) : World :=
  setRecordings (λ prev, filter (λ r, id r ≠ id0) prev) w.

End App.

(* ===================================================================== *)
(** * The page as a transition system                                     *)
(* ===================================================================== *)

Module Page.
Import JS Types App.

(** What can happen to the page: a click, or something the browser
    delivers.  Values the browser or a library chooses ([uuidv4()], a minted
    object URL, how a promise settles) come with the event. *)
Inductive Event :=
| Tick (ms : Z)
    (* the clock advances *)
| ClickStart
    (* the record button: [startRecording] *)
| UserMediaSettled (k : nat) (granted : option MediaStream)
    (* the [k]-th awaited [getUserMedia] resolves, or throws *)
| DataAvailable (data : Blob)
    (* [ondataavailable] *)
| IntervalFires (k : nat)
    (* the callback of the [k]-th running interval *)
| ClickStop
    (* the stop button: [stopRecording] *)
| RecorderStopped (uuid url : string)
    (* the oldest undelivered [stop] event: [onstop] *)
| FileChosen (file : option File) (probe : string)
    (* the file input's [onChange]: [handleFileChange] *)
| MetadataSettled (k : nat) (o : AudioUtils.MetadataOutcome)
    (uuid url : string)
    (* the [k]-th awaited [getAudioDuration] resolves *)
| ClickTranscribe (i : nat)
    (* the transcribe button of the [i]-th item *)
| TranscriptionSettled (k : nat) (env : GeminiService.Environment)
    (* the [k]-th awaited [transcribeAudio] settles, [env] being how the
       file reader and the endpoint behaved *)
| ClickDelete (i : nat).
    (* the delete button of the [i]-th item *)

(** The [k]-th element of a queue, and the queue without it. *)
Definition take_at {A} (k : nat) (l : list A) : option (A * list A) :=
  x ← l !! k; Some (x, delete k l).

(** Every item is rendered from the current list, so a click handler sees
    the [recording] and the [recordings] of the current state.  The page
    shows only one of the record and stop buttons, and the transcribe button
    only on an idle or failed item; the handlers are nevertheless taken to
    be callable at any time, which allows more runs than the page does. *)
Definition step (e : Event) (w : World) : World :=
  match e with
  | Tick ms => set_now (now (browser w) + ms) w
  | ClickStart => startRecording w
  | UserMediaSettled k granted =>
      match take_at k (userMediaCalls (browser w)) with
      | Some (recordingTime, rest) =>
          startRecording_resume recordingTime granted
            (set_userMediaCalls rest w)
      | None => w
      end
  | DataAvailable data => ondataavailable data w
  | IntervalFires k =>
      match intervals (browser w) !! k with
      | Some (_, startTime) => timer_callback startTime w
      | None => w
      end
  | ClickStop => stopRecording w
  | RecorderStopped uuid url =>
      match stopEvents (browser w) with
      | mediaRecorder :: rest =>
          onstop mediaRecorder uuid url (set_stopEvents rest w)
      | [] => w
      end
  | FileChosen file probe => handleFileChange file probe w
  | MetadataSettled k o uuid url =>
      match take_at k (metadataLoads (browser w)) with
      | Some ((file, probe), rest) =>
          handleFileChange_resume file probe o uuid url
            (set_metadataLoads rest w)
      | None => w
      end
  | ClickTranscribe i =>
      match recordings (state w) !! i with
      | Some recording =>
          RecordingItem.handleTranscribe recording
            (handleTranscribe (recordings (state w))) w
      | None => w
      end
  | TranscriptionSettled k env =>
      match take_at k (transcriptions (browser w)) with
      | Some ((id0, blob), rest) =>
          handleTranscribe_resume id0
            (GeminiService.transcribeAudio env blob).2
            (set_transcriptions rest w)
      | None => w
      end
  | ClickDelete i =>
      match recordings (state w) !! i with
      | Some recording => handleDelete (id recording) w
      | None => w
      end
  end.

(** An identifier no recording and no awaited transcription carries. *)
Definition fresh (uuid : string) (w : World) : Prop :=
  (uuid ∉ id <$> recordings (state w)) ∧
  (uuid ∉ fst <$> transcriptions (browser w)).

(** What is assumed of the environment: the clock does not run backwards,
    and [uuidv4()] returns an identifier not in use. *)
Definition valid (e : Event) (w : World) : Prop :=
  match e with
  | Tick ms => (0 ≤ ms)%Z
  | RecorderStopped uuid _ => fresh uuid w
  | MetadataSettled _ _ uuid _ => fresh uuid w
  | _ => True
  end.

#[export] Instance valid_dec e w : Decision (valid e w).
Proof. destruct e; unfold valid, fresh; apply _. Defined.

(** The page when it is loaded at time [t0]. *)
Definition init (t0 : Z) : World := {|
  state := {| isRecording := false; recordings := [];
              recordingTime := 0; mediaStream := None;
              permissionError := None |};
  refs := {| mediaRecorderRef := None; chunksRef := []; timerRef := None |};
  browser := {| now := t0; objectURLs := ∅;
                intervals := []; nextInterval := 1;
                userMediaCalls := []; stopEvents := [];
                metadataLoads := []; transcriptions := [] |};
|}.

(** Running a list of events, oldest first. *)
Definition run (es : list Event) (w : World) : World :=
  foldl (λ w e, step e w) w es.

Inductive reachable : World → Prop :=
| reachable_init t0 : reachable (init t0)
| reachable_step w e : reachable w → valid e w → reachable (step e w).

(** The status shown for the recording with identifier [id0]. *)
Definition status_of (id0 : string) (l : list Recording)
  : option TranscriptionStatus :=
  status <$> List.find (λ r, bool_decide (id r = id0)) l.

End Page.

(* ===================================================================== *)
(** * The specification's own wording                                     *)
(* ===================================================================== *)

Module Spec.
Import JS Types.

(** The character of a decimal digit. *)
Definition digit (d : Z) : ascii := ascii_of_nat (48 + Z.to_nat d).

(** [n] rendered with exactly two digits. *)
Definition two_digits (n : Z) : string :=
  String (digit (n / 10)) (String (digit (n mod 10)) "").

(** [s mod 60] for a duration: what is left of [s] after whole minutes. *)
Definition mod60 (s : Q) : Q := (s - 60 * inject_Z (Qfloor (s / 60)))%Q.

(** The format of a duration in the specification's words: the whole
    minutes, a colon, the whole seconds left on two digits. *)
Definition formatDuration (s : Q) : string :=
  decimal (Qfloor (s / 60)) +:+ ":" +:+ two_digits (Qfloor (mod60 s)).

(** The MIME type that is to reach the endpoint for a blob. *)
Definition mimeType_for (b : Blob) : string :=
  if decide (type b = "") then "audio/webm" else type b.

End Spec.

(* ===================================================================== *)
(** * Observations on the canvas and on the endpoint                      *)
(* ===================================================================== *)

Module Observe.
Import JS Types.

(** The rectangles drawn by a frame: position, width and height of every
    [roundRect], in the order of the calls. *)
Definition rects (ops : list Visualizer.CanvasOp) : list (Q * Q * Q * Q) :=
  omap (λ op, match op with
              | Visualizer.roundRect x y w h _ => Some (x, y, w, h)
              | _ => None
              end) ops.

(** The heights of the bars of a frame, in the order they are drawn. *)
Definition bar_heights (ops : list Visualizer.CanvasOp) : list Q :=
  (λ r, r.2) <$> rects ops.

(** The width [draw] gives every bar. *)
Definition barWidth (width : Q) (bins : nat) : Q :=
  (width / inject_Z (Z.of_nat bins) * 2.5)%Q.

(** The left edge of the bar of bin [i]: [x] after [i] rounds of the loop. *)
Definition bar_x (barWidth : Q) (i : nat) : Q :=
  Nat.iter i (λ x, (x + (barWidth + 1))%Q) 0%Q.

(** The height [draw] gives the bar of a bin holding [b]. *)
Definition scaled (b : byte) : Q := (inject_Z (byte_value b) / 1.5)%Q.

(** The rectangle of bin [i] holding [b], none when the bin is empty. *)
Definition bar_of (height barWidth : Q) (i : nat) (b : byte)
  : option (Q * Q * Q * Q) :=
  if decide (byte_value b = 0)%Z then None
  else Some (bar_x barWidth i, (height - scaled b)%Q, barWidth, scaled b).

(** The MIME types of the audio parts of the requests a call sent. *)
Definition sent_mimeTypes {A} (a : GeminiService.Async A) : list string :=
  p ← a.1;
  omap (λ part, match part with
                | GeminiService.inlineData d => Some (GeminiService.mimeType d)
                | GeminiService.text _ => None
                end) (GeminiService.parts p).

End Observe.

(* ===================================================================== *)
(** * Properties, invariants and sample runs                              *)
(* ===================================================================== *)

Import JS Types App Page.

(** ** The transcription flow *)

(** The status a recording ends in when [transcribeAudio] has settled. *)
Definition settled_status (result : Settled string) : TranscriptionStatus :=
  match result with
  | Fulfilled _ => SUCCESS
  | Rejected _ => ERROR
  end.

(** What [handleTranscribe] makes of the list once [transcribeAudio] has
    settled. *)
Definition settle (id0 : string) (result : Settled string)
    (l : list Recording) : list Recording :=
  match result with
  | Fulfilled transcript => markSuccess id0 transcript l
  | Rejected _ => markError id0 l
  end.

(** An update of the recordings carrying [id0]: they get status [s], the
    others are kept, and nobody's identifier or creation time changes. *)
Definition rewrites (id0 : string) (s : TranscriptionStatus)
    (f : Recording → Recording) : Prop :=
  ∀ r, id (f r) = id r ∧ timestamp (f r) = timestamp r ∧
       (id r ≠ id0 → f r = r) ∧ (id r = id0 → status (f r) = s).

(** [e] is an event of the transcription flow for the identifier [id0]: the
    request made on an item carrying it, or the settling of a call made
    for it. *)
Definition targets (e : Event) (w : World) (id0 : string) : Prop :=
  match e with
  | ClickTranscribe i => id <$> recordings (state w) !! i = Some id0
  | TranscriptionSettled k _ =>
      fst <$> transcriptions (browser w) !! k = Some id0
  | _ => False
  end.

(** What one event does to the recordings [l] and to the awaited
    transcriptions [p], the clock reading [t]. *)
Inductive change (l : list Recording) (p : list (string * Blob)) (t : Z)
  : Event → list Recording → list (string * Blob) → Prop :=
| change_none e : change l p t e l p
| change_create e r :
    status r = IDLE → timestamp r = t →
    id r ∉ id <$> l → id r ∉ fst <$> p →
    change l p t e (r :: l) p
| change_request i r b :
    l !! i = Some r → status r = IDLE ∨ status r = ERROR →
    change l p t (ClickTranscribe i) (markLoading (id r) l) (p ++ [(id r, b)])
| change_settle k env id0 b :
    p !! k = Some (id0, b) →
    change l p t (TranscriptionSettled k env)
      (settle id0 (GeminiService.transcribeAudio env b).2 l) (delete k p)
| change_delete i r :
    l !! i = Some r →
    change l p t (ClickDelete i) (filter (λ r', id r' ≠ id r) l) p.

(** Identifiers are distinct, at most one transcription is awaited for an
    identifier, and a recording is loading exactly when one is awaited. *)
Record consistent (l : list Recording) (p : list (string * Blob)) : Prop := {
  ids_distinct : NoDup (id <$> l);
  awaited_distinct : NoDup (fst <$> p);
  loading_awaited :
    ∀ r, r ∈ l → status r = LOADING ↔ id r ∈ fst <$> p;
}.

Definition consistent_world (w : World) : Prop :=
  consistent (recordings (state w)) (transcriptions (browser w)).

(** ** Chronological order *)

(** [a] was created no earlier than [b]. *)
Definition newer (a b : Recording) : Prop := (timestamp b ≤ timestamp a)%Z.

(** What identifies a recording and dates its creation. *)
Definition creation (r : Recording) : string * Z := (id r, timestamp r).

(** Newest first, and nothing dated after the clock reading [t]. *)
Record chronological (t : Z) (l : list Recording) : Prop := {
  newest_first : StronglySorted newer l;
  created_before : Forall (λ r, timestamp r ≤ t)%Z l;
}.

(** ** Runs *)

(** Every event of a run meets what is assumed of the environment. *)
Fixpoint valid_run (es : list Event) (w : World) : Prop :=
  match es with
  | [] => True
  | e :: es => valid e w ∧ valid_run es (step e w)
  end.

#[export] Instance valid_run_dec es w : Decision (valid_run es w).
Proof. revert w. induction es; intros w; cbn; apply _. Defined.

(** ** Sample data *)

Definition sample_chunk : Blob :=
  {| bytes := [Byte.x01; Byte.x02]; type := "" |}.

Definition sample_file : File :=
  {| file_blob := {| bytes := [Byte.x03]; type := "audio/mpeg" |};
     file_name := "memo.mp3" |}.

(** The file reader works, the endpoint cannot be reached. *)
Definition offline : GeminiService.Environment := {|
  GeminiService.readAsDataURL := λ _, Some "data:audio/webm;base64,AQI=";
  GeminiService.generateContent :=
    λ _, Rejected {| message := Some "fetch failed" |};
|}.

(** The microphone is granted, five seconds pass, the timer fires and a
    chunk arrives. *)
Definition capture : list Event :=
  [ ClickStart; UserMediaSettled 0 (Some 7%nat); Tick 5000; IntervalFires 0;
    DataAvailable sample_chunk ].

(** The capture is stopped and its [stop] event delivered. *)
Definition stop (uuid url : string) : list Event :=
  [ ClickStop; RecorderStopped uuid url ].

(** A file is chosen and its metadata loads. *)
Definition upload : list Event :=
  [ FileChosen (Some sample_file) "blob:probe";
    MetadataSettled 0 (AudioUtils.loadedmetadata (AudioUtils.Finite 3))
      "a" "blob:a" ].

(** One uploaded recording. *)
Definition listed : World := run upload (init 0).

(** Its transcription has been requested. *)
Definition awaiting : World := run (upload ++ [ClickTranscribe 0]) (init 0).

(** It was deleted while the transcription was awaited. *)
Definition orphaned : World :=
  run (upload ++ [ClickTranscribe 0; ClickDelete 0]) (init 0).

(** An upload, then a capture. *)
Definition two_recordings : World :=
  run (upload ++ [Tick 250] ++ capture ++ stop "b" "blob:b") (init 0).

(* ===================================================================== *)
(** * components/RecordingItem.tsx: what an item shows                    *)
(* ===================================================================== *)

Module ItemView.
Import JS Types.

(** The three conditional parts of the transcription section of an item:
    the action area with its message and the label of its button, the
    loading line, the transcript. *)
Inductive Section :=
| ActionArea (message label : string)
| LoadingState
| TranscriptResult (text : string).

(** The parts an item renders, in the order of the JSX.  The transcript is
    rendered when the status is success and [recording.transcript] is
    truthy (neither [null] nor empty). *)
Definition sections (recording : Recording) : list Section :=
  (if decide (status recording = IDLE ∨ status recording = ERROR)
   then [ ActionArea
            (if decide (status recording = ERROR)
             then "Ошибка транскрипции." else "Транскрипция отсутствует.")
            (if decide (status recording = ERROR)
             then "Повторить" else "Расшифровать") ]
   else []) ++
  (if decide (status recording = LOADING) then [LoadingState] else []) ++
  (if decide (status recording = SUCCESS)
   then match transcript recording with
        | Some (String c rest) => [TranscriptResult (String c rest)]
        | _ => []
        end
   else []).

End ItemView.

(* ===================================================================== *)
(** * Further properties of the page                                      *)
(* ===================================================================== *)

(** No comma occurs in [s]. *)
Fixpoint comma_free (s : string) : bool :=
  match s with
  | EmptyString => true
  | String c rest => negb (Ascii.eqb c ",") && comma_free rest
  end.

(** The status of a recording and its optional fields agree: a transcript,
    never empty, exactly on success; the fixed message exactly on error. *)
Definition coherent (r : Types.Recording) : Prop :=
  match Types.status r with
  | Types.IDLE | Types.LOADING =>
      Types.transcript r = None ∧ Types.error r = None
  | Types.SUCCESS =>
      (∃ t, Types.transcript r = Some t ∧ t ≠ "") ∧ Types.error r = None
  | Types.ERROR =>
      Types.transcript r = None ∧
      Types.error r = Some App.TRANSCRIPTION_FAILED
  end.

(** The recorder, the timer and the flag of a session agree. *)
Record session_ok (w : App.World) : Prop := {
  next_interval_positive : (0 < App.nextInterval (App.browser w))%nat;
  interval_ids :
    Forall (λ i, (0 < i.1 < App.nextInterval (App.browser w))%nat)
      (App.intervals (App.browser w));
  interval_ids_distinct : NoDup (fst <$> App.intervals (App.browser w));
  interval_starts :
    Forall (λ i, (i.2 ≤ App.now (App.browser w))%Z)
      (App.intervals (App.browser w));
  recording_has_recorder :
    App.isRecording (App.state w) = true →
    is_Some (App.mediaRecorderRef (App.refs w));
  recording_has_timer :
    App.isRecording (App.state w) = true →
    ∃ t, App.timerRef (App.refs w) = Some t ∧
         t ∈ fst <$> App.intervals (App.browser w);
  idle_has_no_timer :
    App.isRecording (App.state w) = false →
    App.timerRef (App.refs w) = None;
  time_nonneg : (0 <= App.recordingTime (App.state w))%Q;
}.

(** A spectrum of three bins. *)
Definition spectrum : list byte := [Byte.x96; Byte.x00; Byte.x03].

(** The file reader and the endpoint both work. *)
Definition online : GeminiService.Environment := {|
  GeminiService.readAsDataURL := λ _, Some "data:audio/mpeg;base64,Aw==";
  GeminiService.generateContent :=
    λ _, Fulfilled {| GeminiService.response_text := Some "привет" |};
|}.

(** The uploaded recording has been transcribed. *)
Definition finished : App.World :=
  Page.run (upload ++ [Page.ClickTranscribe 0;
                       Page.TranscriptionSettled 0 online]) (Page.init 0).

(** A capture from the click on the record button to the delivery of the
    [stop] event, [n] calls of [getUserMedia] being awaited before it and
    [chunks] arriving meanwhile. *)
Definition capture_session (n : nat) (stream : App.MediaStream)
    (chunks : list Types.Blob) (uuid url : string) : list Page.Event :=
  [ Page.ClickStart; Page.UserMediaSettled n (Some stream) ] ++
  (Page.DataAvailable <$> chunks) ++
  [ Page.ClickStop; Page.RecorderStopped uuid url ].

(** The recording [handleFileChange] makes of a file. *)
Definition uploaded (file : Types.File) (o : AudioUtils.MetadataOutcome)
    (uuid url : string) (t : Z) : Types.Recording := {|
  Types.id := uuid;
  Types.blob := Types.file_blob file;
  Types.url := url;
  Types.timestamp := t;
  Types.duration :=
    match o with
    | AudioUtils.loadedmetadata (AudioUtils.Finite d) => d
    | _ => 0%Q
    end;
  Types.transcript := None;
  Types.status := Types.IDLE;
  Types.error := None;
  Types.name := Some (Types.file_name file);
|}.

(** The recording as a fulfilled transcription leaves it. *)
Definition transcribed (r : Types.Recording) (text : string)
  : Types.Recording := {|
  Types.id := Types.id r;
  Types.blob := Types.blob r;
  Types.url := Types.url r;
  Types.timestamp := Types.timestamp r;
  Types.duration := Types.duration r;
  Types.transcript := Some text;
  Types.status := Types.SUCCESS;
  Types.error := None;
  Types.name := Types.name r;
|}.

(* ===================================================================== *)
(** * Proofs                                                              *)
(* ===================================================================== *)


(** Opens a world into its fields. *)
Ltac world w :=
  destruct w as [[?isRec ?recs ?time ?stream ?perr]
                 [?recorder ?chunks ?timer]
                 [?now ?urls ?ivals ?next ?calls ?stops ?loads ?pend]].

(** ** Formatting a duration *)

Lemma trunc_nonneg x : (0 <= x)%Q → trunc x = Qfloor x.
Proof. intros H. unfold trunc. by rewrite (proj2 (Qle_bool_iff 0 x) H). Qed.

Lemma minutes_nonneg s : (0 <= s)%Q → (0 <= s / 60)%Q.
Proof. intros H. apply Qle_shift_div_l; [reflexivity | lra]. Qed.

Lemma mod60_range s : (0 <= Spec.mod60 s)%Q ∧ (Spec.mod60 s < 60)%Q.
Proof.
  unfold Spec.mod60.
  pose proof (Qfloor_le (s / 60)) as Hlo.
  pose proof (Qlt_floor (s / 60)) as Hhi.
  rewrite inject_Z_plus in Hhi.
  assert (s == 60 * (s / 60))%Q as Hs by field.
  set (f := inject_Z (Qfloor (s / 60))) in *.
  change (inject_Z 1) with 1%Q in Hhi.
  split; lra.
Qed.

Lemma floor_below_60 r : (0 <= r)%Q → (r < 60)%Q → (0 ≤ Qfloor r < 60)%Z.
Proof.
  intros Hlo Hhi. split.
  - change 0%Z with (Qfloor 0). by apply Qfloor_resp_le.
  - rewrite Zlt_Qlt. eapply Qle_lt_trans; [apply Qfloor_le | exact Hhi].
Qed.

Lemma padStart_two_digits n :
  (0 ≤ n < 60)%Z → padStart 2 "0" (Number_toString n) = Spec.two_digits n.
Proof.
  intros [Hlo Hhi]. rewrite <- (Z2Nat.id n Hlo).
  assert (Z.to_nat n < 60)%nat as Hn by lia.
  generalize dependent (Z.to_nat n). clear. intros k Hk.
  do 60 (destruct k as [|k]; [vm_compute; reflexivity|]). lia.
Qed.

(** ** Rounding the quotient *)

Lemma pow2_pos k : (0 < pow2 k)%Q.
Proof. apply Qpower_0_lt. reflexivity. Qed.

Lemma pow2_add a b : (pow2 (a + b) == pow2 a * pow2 b)%Q.
Proof. apply Qpower_plus. discriminate. Qed.

Lemma pow2_mono a b : (a ≤ b)%Z → (pow2 a <= pow2 b)%Q.
Proof. intros H. apply Qpower_le_compat_l; [done|]. discriminate. Qed.

Lemma pow2_Z k : (0 ≤ k)%Z → (pow2 k == inject_Z (2 ^ k))%Q.
Proof. intros H. unfold pow2. by rewrite Zpower_Qpower. Qed.

Lemma exponent_le x : (0 < x)%Q → (pow2 (exponent x) <= x)%Q.
Proof.
  intros Hx. unfold exponent.
  set (e := (Z.log2 (Qnum x) - Z.log2 (Z.pos (Qden x)))%Z).
  destruct (Qle_bool (pow2 e) x) eqn:Hle; [by apply Qle_bool_iff|].
  clear Hle. destruct x as [p d]. cbn [Qnum Qden] in *.
  assert (0 < p)%Z as Hp.
  { unfold Qlt in Hx. cbn in Hx. lia. }
  pose proof (Z.log2_spec p Hp) as [Hlp _].
  pose proof (Z.log2_spec (Z.pos d) ltac:(lia)) as [_ Hld].
  pose proof (Z.log2_nonneg p) as Hp0.
  pose proof (Z.log2_nonneg (Z.pos d)) as Hd0.
  set (lp := Z.log2 p) in *. set (ld := Z.log2 (Z.pos d)) in *.
  assert (pow2 (e - 1) * pow2 (ld + 1) == pow2 lp)%Q as Hsplit.
  { rewrite <- pow2_add. unfold e. by replace (lp - ld - 1 + (ld + 1))%Z with lp by lia. }
  assert (pow2 lp <= inject_Z p)%Q as HP.
  { rewrite pow2_Z by done. by rewrite <- Zle_Qle. }
  assert (inject_Z (Z.pos d) <= pow2 (ld + 1))%Q as HD.
  { rewrite pow2_Z by lia. rewrite <- Zle_Qle. unfold Z.succ in Hld. lia. }
  assert (0 < inject_Z (Z.pos d))%Q as Hdpos.
  { change 0%Q with (inject_Z 0). by rewrite <- Zlt_Qlt. }
  assert ((p # d) * inject_Z (Z.pos d) == inject_Z p)%Q as Hx'.
  { rewrite (Qmake_Qdiv p d). field. lra. }
  pose proof (pow2_pos (e - 1)) as HA.
  set (A := pow2 (e - 1)) in *. set (B := pow2 (ld + 1)) in *.
  set (C := pow2 lp) in *. set (P := inject_Z p) in *.
  set (Dd := inject_Z (Z.pos d)) in *. set (X := (p # d)%Q) in *.
  destruct (Qlt_le_dec X A) as [Hlt|]; [|done]. exfalso.
  assert (X * Dd < A * Dd)%Q by (apply Qmult_lt_r; done).
  assert (A * Dd <= A * B)%Q by (apply Qmult_le_l; done).
  lra.
Qed.

Lemma round_half_even_bounds y :
  (Qfloor y ≤ round_half_even y)%Z ∧
  (inject_Z (round_half_even y) <= y + (1 # 2))%Q.
Proof.
  unfold round_half_even.
  pose proof (Qfloor_le y) as Hlo. pose proof (Qlt_floor y) as Hhi.
  rewrite inject_Z_plus in Hhi. change (inject_Z 1) with 1%Q in Hhi.
  set (f := Qfloor y) in *.
  destruct (Qcompare_spec (y - inject_Z f) (1 # 2)) as [Heq|Hlt|Hgt].
  - destruct (Z.even f); (split; [lia|]);
      rewrite ?inject_Z_plus; change (inject_Z 1) with 1%Q; lra.
  - split; [lia|lra].
  - split; [lia|]. rewrite inject_Z_plus. change (inject_Z 1) with 1%Q. lra.
Qed.

Lemma Qfloor_unique x f :
  (inject_Z f <= x)%Q → (x < inject_Z f + 1)%Q → Qfloor x = f.
Proof.
  intros Hlo Hhi.
  assert (f ≤ Qfloor x)%Z.
  { rewrite <- (Qfloor_Z f). by apply Qfloor_resp_le. }
  assert (Qfloor x < f + 1)%Z; [|lia].
  rewrite Zlt_Qlt, inject_Z_plus. change (inject_Z 1) with 1%Q.
  eapply Qle_lt_trans; [apply Qfloor_le|done].
Qed.

Lemma inject_Z_minus a b : (inject_Z (a - b) == inject_Z a - inject_Z b)%Q.
Proof. unfold Z.sub. rewrite inject_Z_plus, inject_Z_opp. ring. Qed.

Lemma pow2_inv u : (pow2 u * pow2 (- u) == 1)%Q.
Proof. rewrite <- pow2_add. by replace (u + - u)%Z with 0%Z by lia. Qed.

(** The result of rounding a positive [q], bracketed. *)
Lemma round64_pos_bounds q u :
  u = Z.max (exponent q - 52) (-1074) →
  (inject_Z (Qfloor (q / pow2 u)) * pow2 u <= round64_pos q)%Q ∧
  (round64_pos q <= q + pow2 u * (1 # 2))%Q.
Proof.
  intros Hu. unfold round64_pos. rewrite <- Hu.
  pose proof (pow2_pos u) as Hpw.
  destruct (round_half_even_bounds (q / pow2 u)) as [Hlo Hhi].
  set (n := round_half_even (q / pow2 u)) in *.
  set (r := (q / pow2 u)%Q) in *. set (pw := pow2 u) in *.
  assert (q == r * pw)%Q as Hq by (unfold r; field; lra).
  split.
  - apply Qmult_le_r; [done|]. by rewrite <- Zle_Qle.
  - assert (inject_Z n * pw <= (r + (1 # 2)) * pw)%Q
      by (apply Qmult_le_r; done).
    lra.
Qed.

Lemma floor_scaled f q u :
  (u ≤ 0)%Z → (inject_Z f <= q)%Q →
  (inject_Z f <= inject_Z (Qfloor (q / pow2 u)) * pow2 u)%Q.
Proof.
  intros Hu Hf. pose proof (pow2_pos u) as Hpw.
  pose proof (pow2_inv u) as Hinv.
  assert (pow2 (- u) == inject_Z (2 ^ (- u)))%Q as HZ by (apply pow2_Z; lia).
  set (K := (f * 2 ^ (- u))%Z).
  assert (inject_Z K <= q / pow2 u)%Q as HK.
  { unfold K. rewrite inject_Z_mult, <- HZ.
    apply Qle_shift_div_l; [done|].
    rewrite <- Qmult_assoc, (Qmult_comm (pow2 (- u))), Hinv. lra. }
  apply Qfloor_resp_le in HK. rewrite Qfloor_Z in HK.
  rewrite (Zle_Qle K) in HK.
  assert (inject_Z K * pow2 u <= inject_Z (Qfloor (q / pow2 u)) * pow2 u)%Q
    as Hmul by (apply Qmult_le_r; done).
  assert (inject_Z K * pow2 u == inject_Z f)%Q as HKf.
  { unfold K. rewrite inject_Z_mult, <- HZ, <- Qmult_assoc,
      (Qmult_comm (pow2 (- u))), Hinv. ring. }
  lra.
Qed.

(** A double below [2^52] that is below a multiple of 60 is below it by
    more than its [2^-53]-th part. *)
Lemma gap_below_multiple s k :
  is_double s → (0 < s)%Q → (s < inject_Z (2 ^ 52))%Q →
  (s < 60 * inject_Z k)%Q →
  (s < (60 * inject_Z k - s) * inject_Z (2 ^ 53))%Q.
Proof.
  intros (M & E & Hs & HM & HE) Hpos Hbound Hk.
  pose proof (pow2_pos E) as HpE.
  assert (0 < M)%Z as HM0.
  { destruct (decide (0 < M)%Z) as [|Hn]; [done|]. exfalso.
    assert (inject_Z M <= 0)%Q as HMq.
    { change 0%Q with (inject_Z 0). rewrite <- Zle_Qle. lia. }
    assert (inject_Z M * pow2 E <= 0 * pow2 E)%Q
      by (apply Qmult_le_r; done).
    lra. }
  destruct (decide (E ≤ 0)%Z) as [HE0|HE0].
  - pose proof (pow2_inv E) as Hinv.
    assert (pow2 (- E) == inject_Z (2 ^ (- E)))%Q as HZ
      by (apply pow2_Z; lia).
    pose proof (pow2_pos (- E)) as HpN.
    set (N := (2 ^ (- E))%Z) in *.
    assert (s * inject_Z N == inject_Z M)%Q as HsN.
    { rewrite Hs, <- HZ, <- Qmult_assoc, Hinv. ring. }
    set (G := (60 * k * N - M)%Z).
    assert ((60 * inject_Z k - s) * inject_Z N == inject_Z G)%Q as HG.
    { unfold G. rewrite inject_Z_minus, !inject_Z_mult.
      change (inject_Z 60) with 60%Q. lra. }
    assert (0 < inject_Z N)%Q as HN by (rewrite <- HZ; done).
    assert (0 < inject_Z G)%Q as HGpos.
    { rewrite <- HG. apply Qmult_lt_0_compat; lra. }
    change 0%Q with (inject_Z 0) in HGpos. rewrite <- Zlt_Qlt in HGpos.
    assert (inject_Z M < inject_Z G * inject_Z (2 ^ 53))%Q as Hfin.
    { rewrite <- inject_Z_mult, <- Zlt_Qlt. nia. }
    rewrite <- HsN, <- HG in Hfin.
    apply (Qmult_lt_r _ _ (inject_Z N)); [done|]. lra.
  - assert (pow2 E == inject_Z (2 ^ E))%Q as HZ by (apply pow2_Z; lia).
    set (S := (M * 2 ^ E)%Z).
    assert (s == inject_Z S)%Q as HS.
    { unfold S. by rewrite inject_Z_mult, <- HZ. }
    set (G := (60 * k - S)%Z).
    assert (60 * inject_Z k - s == inject_Z G)%Q as HG.
    { unfold G. rewrite inject_Z_minus, inject_Z_mult, HS.
      change (inject_Z 60) with 60%Q. ring. }
    assert (0 < inject_Z G)%Q as HGpos by (rewrite <- HG; lra).
    change 0%Q with (inject_Z 0) in HGpos. rewrite <- Zlt_Qlt in HGpos.
    rewrite HS in Hbound. rewrite <- Zlt_Qlt in Hbound.
    rewrite HG, HS, <- inject_Z_mult, <- Zlt_Qlt. nia.
Qed.

Lemma exponent_below q b :
  (0 < q)%Q → (q < pow2 b)%Q → (exponent q < b)%Z.
Proof.
  intros Hq Hb. destruct (decide (exponent q < b)%Z) as [|Hn]; [done|].
  exfalso. pose proof (exponent_le q Hq) as Hle.
  assert (pow2 b <= pow2 (exponent q))%Q by (apply pow2_mono; lia).
  lra.
Qed.

Lemma floor_of_quotient s :
  is_double s → (0 <= s)%Q → (s < inject_Z (2 ^ 52))%Q →
  Qfloor (div s 60) = Qfloor (s / 60).
Proof.
  intros Hdouble Hs0 Hbound. unfold div, round64.
  set (q := (s / 60)%Q).
  assert (s == 60 * q)%Q as Hsq by (unfold q; field).
  destruct (Qcompare_spec q 0) as [Heq|Hlt|Hgt].
  - by rewrite Heq.
  - lra.
  - set (f := Qfloor q).
    pose proof (Qfloor_le q) as Hflo. pose proof (Qlt_floor q) as Hfhi.
    rewrite inject_Z_plus in Hfhi. change (inject_Z 1) with 1%Q in Hfhi.
    fold f in Hflo, Hfhi.
    set (u := Z.max (exponent q - 52) (-1074)).
    destruct (round64_pos_bounds q u eq_refl) as [Hlo Hhi].
    pose proof (pow2_pos u) as Hpw.
    assert (pow2 52 == inject_Z (2 ^ 52))%Q as H52 by (by apply pow2_Z).
    assert (exponent q < 52)%Z as Hexp.
    { apply exponent_below; [done|]. rewrite H52. lra. }
    assert (u ≤ 0)%Z as Hu by lia.
    apply Qfloor_unique.
    + eapply Qle_trans; [|exact Hlo]. by apply floor_scaled.
    + eapply Qle_lt_trans; [exact Hhi|].
      destruct (Qlt_le_dec q (1 # 2)) as [Hsmall|Hlarge].
      * assert (f = 0%Z) as Hf0.
        { apply Qfloor_unique; [|]; change (inject_Z 0) with 0%Q; lra. }
        rewrite Hf0 in *. change (inject_Z 0) with 0%Q in *.
        assert (pow2 u <= pow2 0)%Q by (by apply pow2_mono).
        change (pow2 0) with 1%Q in *. lra.
      * assert (pow2 u <= q * pow2 (-52))%Q as Hulp.
        { unfold u. destruct (Z.max_spec (exponent q - 52) (-1074))
            as [[_ ->]|[_ ->]].
          - assert (pow2 (-1074) <= pow2 (-53))%Q by (by apply pow2_mono).
            assert (pow2 (-53) == (1 # 2) * pow2 (-52))%Q by reflexivity.
            pose proof (pow2_pos (-52)).
            assert ((1 # 2) * pow2 (-52) <= q * pow2 (-52))%Q
              by (apply Qmult_le_r; done).
            lra.
          - replace (exponent q - 52)%Z with (exponent q + -52)%Z by lia.
            rewrite pow2_add. apply Qmult_le_r; [apply pow2_pos|].
            by apply exponent_le. }
        assert (0 < s)%Q as Hspos by lra.
        assert (s < 60 * inject_Z (f + 1))%Q as Hnext.
        { rewrite inject_Z_plus. change (inject_Z 1) with 1%Q. lra. }
        pose proof (gap_below_multiple s (f + 1) Hdouble Hspos Hbound Hnext)
          as Hgap.
        rewrite inject_Z_plus in Hgap. change (inject_Z 1) with 1%Q in Hgap.
        assert (pow2 (-52) * inject_Z (2 ^ 53) == 2)%Q as Hc by reflexivity.
        set (c := inject_Z (2 ^ 53)) in *. set (e52 := pow2 (-52)) in *.
        set (pw := pow2 u) in *. set (F := inject_Z f) in *.
        assert (0 < c)%Q by reflexivity.
        (* pw * c <= q * e52 * c = 2 q ; s < (60 (F+1) - s) c *)
        assert (pw * c <= q * e52 * c)%Q by (apply Qmult_le_r; done).
        assert (q * e52 * c == 2 * q)%Q as H2q by (rewrite <- Qmult_assoc, Hc; ring).
        rewrite Hsq in Hgap.
        assert ((q + pw * (1 # 2)) * c < (F + 1) * c)%Q as Hfin by lra.
        by apply Qmult_lt_r in Hfin.
Qed.

Lemma Number_toString_small n :
  (0 ≤ n < 2 ^ 53)%Z → Number_toString n = decimal n.
Proof.
  intros [Hlo Hhi]. unfold Number_toString, unsigned_toString.
  destruct (Z.ltb_spec n 0) as [|_]; [lia|].
  destruct (Z.ltb_spec n (2 ^ 53)) as [_|]; [done|lia].
Qed.

Example formatDuration_125 : AudioUtils.formatDuration 125 = "2:05".
Proof. reflexivity. Qed.

Example formatDuration_fraction :
  AudioUtils.formatDuration (359975 # 100) = "59:59".
Proof. reflexivity. Qed.

(** From [10^21] minutes on, the minutes are in exponent notation. *)
Example formatDuration_exponent :
  AudioUtils.formatDuration (inject_Z (6 * 10 ^ 22)) = "1e+21:00".
Proof. vm_compute. reflexivity. Qed.

(** C7, as stated, fails: at [s = 2^56 + 160] seconds the quotient
    [s / 60 = 1200959900632134.93...] has no double nearer than
    [1200959900632135], so the minutes printed are one more than
    [floor (s / 60)]. *)
Lemma formatDuration_rounds_up :
  let s := inject_Z (2 ^ 56 + 160) in
  is_double s ∧ (0 <= s)%Q ∧
  Qfloor (s / 60) = 1200959900632134%Z ∧
  AudioUtils.formatDuration s = "1200959900632135:56" ∧
  Spec.formatDuration s = "1200959900632134:56" ∧
  AudioUtils.formatDuration s ≠ Spec.formatDuration s.
Proof.
  cbn zeta. split.
  { exists (2 ^ 51 + 5)%Z, 5%Z. split; [reflexivity|]. split; [reflexivity|lia]. }
  split; [discriminate|]. split; [reflexivity|].
  split; [vm_compute; reflexivity|]. split; [vm_compute; reflexivity|].
  vm_compute. discriminate.
Qed.

(** C7, amended.  For every non-negative duration [s] in seconds below
    [2^52], [formatDuration s] is the decimal rendering of
    [floor (s / 60)], then a colon, then [floor (s mod 60)] on exactly two
    digits, a leading zero filling up. *)
Theorem formatDuration_correct s :
  is_double s → (0 <= s)%Q → (s < inject_Z (2 ^ 52))%Q →
  AudioUtils.formatDuration s = Spec.formatDuration s.
Proof.
  intros Hdouble Hs Hbound.
  unfold AudioUtils.formatDuration, Spec.formatDuration, Math_floor.
  rewrite (floor_of_quotient s Hdouble Hs Hbound).
  f_equal; [|f_equal].
  - apply Number_toString_small.
    pose proof (minutes_nonneg s Hs) as Hq.
    assert (s / 60 < inject_Z (2 ^ 52))%Q as Hlt.
    { apply Qlt_shift_div_r; [reflexivity|]. lra. }
    split.
    + change 0%Z with (Qfloor 0). by apply Qfloor_resp_le.
    + assert (Qfloor (s / 60) < 2 ^ 52)%Z; [|lia].
      rewrite Zlt_Qlt. eapply Qle_lt_trans; [apply Qfloor_le|exact Hlt].
  - assert (rem s 60 = Spec.mod60 s) as ->.
    { unfold rem, Spec.mod60.
      by rewrite (trunc_nonneg _ (minutes_nonneg _ Hs)). }
    apply padStart_two_digits. destruct (mod60_range s).
    by apply floor_below_60.
Qed.

Lemma formatDuration_correct_witness :
  is_double 125 ∧ (0 <= 125)%Q ∧ (125 < inject_Z (2 ^ 52))%Q ∧
  AudioUtils.formatDuration 125 = Spec.formatDuration 125.
Proof.
  assert (is_double 125) as Hdouble.
  { exists 125%Z, 0%Z. split; [reflexivity|]. split; [reflexivity|lia]. }
  split; [exact Hdouble|]. split; [discriminate|]. split; [reflexivity|].
  apply (formatDuration_correct 125 Hdouble); [discriminate|reflexivity].
Defined.

(** ** The request sent to the endpoint *)

Lemma or_else_default b :
  or_else (type b) "audio/webm" = Spec.mimeType_for b.
Proof. unfold Spec.mimeType_for. destruct (type b); by case_decide. Qed.

(** When the endpoint throws, so does [transcribeAudio]. *)
Lemma transcribeAudio_endpoint_throws env audioBlob result :
  GeminiService.readAsDataURL env audioBlob = Some result →
  (∀ p, ∃ e, GeminiService.generateContent env p = Rejected e) →
  ∃ e, (GeminiService.transcribeAudio env audioBlob).2 = Rejected e.
Proof.
  intros Hread Hthrow.
  unfold GeminiService.transcribeAudio, AudioUtils.blobToBase64.
  rewrite Hread.
  unfold GeminiService.await, GeminiService.call, GeminiService.try_catch,
    GeminiService.throw, mbind, mret, GeminiService.Async_bind,
    GeminiService.Async_ret.
  cbn.
  match goal with
  | |- context [GeminiService.generateContent env ?p] =>
      destruct (Hthrow p) as [e ->]
  end.
  eauto.
Qed.

(** C9.  For every audio blob given to [transcribeAudio], the request sent
    to the endpoint carries one MIME type: the blob's own type when that is
    a non-empty string, ['audio/webm'] when it is empty.  (Nothing is sent
    when the blob cannot be read.) *)
Theorem mimeType_sent env audioBlob :
  Observe.sent_mimeTypes (GeminiService.transcribeAudio env audioBlob)
  = match GeminiService.readAsDataURL env audioBlob with
    | Some _ => [Spec.mimeType_for audioBlob]
    | None => []
    end.
Proof.
  unfold GeminiService.transcribeAudio, AudioUtils.blobToBase64.
  rewrite or_else_default.
  unfold Observe.sent_mimeTypes, GeminiService.await, GeminiService.call,
    GeminiService.try_catch, GeminiService.throw, mbind, mret,
    GeminiService.Async_bind, GeminiService.Async_ret.
  destruct (GeminiService.readAsDataURL env audioBlob); [|reflexivity].
  destruct (GeminiService.generateContent env _); reflexivity.
Qed.

Example mimeType_default :
  Observe.sent_mimeTypes (GeminiService.transcribeAudio offline sample_chunk)
  = ["audio/webm"].
Proof. reflexivity. Qed.

Example mimeType_own :
  Observe.sent_mimeTypes
    (GeminiService.transcribeAudio offline (file_blob sample_file))
  = ["audio/mpeg"].
Proof. reflexivity. Qed.

(** ** The bars of a frame *)

Lemma bar_drawn_iff b :
  negb (Qle_bool (Observe.scaled b) 0) = bool_decide (byte_value b ≠ 0)%Z.
Proof. destruct b; vm_compute; reflexivity. Qed.

Lemma rects_bars height bw data k :
  Observe.rects (Visualizer.bars height bw data (Observe.bar_x bw k))
  = omap (λ p, Observe.bar_of height bw p.1 p.2)
         (imap (λ i b, (k + i, b)%nat) data).
Proof.
  revert k. induction data as [|b data IH]; intros k; [done|].
  rewrite imap_cons. cbn [Visualizer.bars]. fold (Observe.scaled b).
  rewrite bar_drawn_iff.
  change (Observe.bar_x bw k + (bw + 1))%Q with (Observe.bar_x bw (S k)).
  unfold Observe.rects in *. cbn [omap list_omap]. rewrite omap_app, IH.
  cbn [fst snd]. rewrite Nat.add_0_r. unfold Observe.bar_of at 2.
  assert (imap ((λ i b0, (k + i, b0)%nat) ∘ S) data
          = imap (λ i b0, (S k + i, b0)%nat) data) as ->.
  { apply imap_ext. intros. cbn. f_equal. lia. }
  case_bool_decide; case_decide; done.
Qed.

Lemma bar_x_closed bw i :
  (Observe.bar_x bw i == inject_Z (Z.of_nat i) * (bw + 1))%Q.
Proof.
  induction i as [|i IH]; [reflexivity|].
  change (Observe.bar_x bw (S i)) with (Observe.bar_x bw i + (bw + 1))%Q.
  rewrite IH, Nat2Z.inj_succ. unfold Z.succ. rewrite inject_Z_plus.
  change (inject_Z 1) with 1%Q. ring.
Qed.

(** C8, as stated, fails: with one bin holding 150 the bar drawn is 100
    high, not 150. *)
Lemma bar_height_is_not_byte_value :
  let dataArray := [Byte.x96] in
  ∃ ops h,
    Visualizer.draw true 600 128 dataArray = Some ops ∧
    Observe.bar_heights ops !! 0%nat = Some h ∧
    dataArray !! 0%nat = Some Byte.x96 ∧
    byte_value Byte.x96 = 150%Z ∧
    (h == 100)%Q ∧
    ¬ (h == inject_Z (byte_value Byte.x96))%Q.
Proof.
  eexists _, _. split; [reflexivity|]. split; [reflexivity|].
  split; [reflexivity|]. split; [reflexivity|]. split; [reflexivity|].
  intros H. vm_compute in H. discriminate.
Qed.

(** C8, amended.  On every frame drawn while recording, the rectangles
    drawn are, in the order of the bins, one for every bin whose byte is not
    zero: the bar of bin [i] holding [b] stands at [bar_x i], is [barWidth]
    wide and [b / 1.5] high; a bin holding zero draws no bar. *)
Theorem bars_drawn width height dataArray :
  Observe.rects <$> Visualizer.draw true width height dataArray
  = Some (omap (λ p, Observe.bar_of height
                       (Observe.barWidth width (length dataArray)) p.1 p.2)
               (imap pair dataArray)).
Proof.
  unfold Visualizer.draw. cbn [negb fmap option_fmap option_map]. f_equal.
  change (Observe.rects (Visualizer.clearRect 0 0 width height :: ?l))
    with (Observe.rects l).
  apply (rects_bars height _ dataArray 0%nat).
Qed.

(** ** Lists and queues *)

Lemma sublist_into_filter {A} (P : A → Prop) `{!∀ x, Decision (P x)}
    (l k : list A) :
  l `sublist_of` k → Forall P l → l `sublist_of` filter P k.
Proof.
  induction 1 as [|x l k Hs IH|x l k Hs IH]; intros Hall.
  - constructor.
  - apply Forall_cons in Hall as [Hx Hl]. rewrite filter_cons_True by done.
    constructor. auto.
  - rewrite filter_cons. case_decide; [apply sublist_cons|]; auto.
Qed.

Lemma filter_all {A} (P : A → Prop) `{!∀ x, Decision (P x)} (l : list A) :
  Forall P l → filter P l = l.
Proof.
  induction 1 as [|x l Hx Hl IH]; [done|].
  by rewrite filter_cons_True, IH.
Qed.

Lemma sublist_Forall {A} (P : A → Prop) (l1 l2 : list A) :
  l1 `sublist_of` l2 → Forall P l2 → Forall P l1.
Proof.
  rewrite !Forall_forall. intros Hsub Hall x Hx.
  by eapply Hall, elem_of_sublist.
Qed.

Lemma sublist_StronglySorted {A} (R : relation A) (l1 l2 : list A) :
  l1 `sublist_of` l2 → StronglySorted R l2 → StronglySorted R l1.
Proof.
  induction 1 as [|x l1 l2 Hsub IH|x l1 l2 Hsub IH];
    rewrite ?StronglySorted_cons; [done| |tauto].
  intros [Hx Hl]. split; [|auto]. by eapply sublist_Forall.
Qed.

Lemma delete_elem {A} (l : list A) k x y :
  l !! k = Some x → y ≠ x → y ∈ delete k l ↔ y ∈ l.
Proof.
  intros Hk Hne. rewrite <- (take_drop_middle l k x Hk) at 2.
  rewrite delete_take_drop, !elem_of_app, elem_of_cons. tauto.
Qed.

Lemma delete_NoDup {A} (l : list A) k x :
  NoDup l → l !! k = Some x → x ∉ delete k l.
Proof.
  intros Hdup Hk. rewrite <- (take_drop_middle l k x Hk) in Hdup.
  apply NoDup_app in Hdup as (_ & Hl & [Hr _]%NoDup_cons).
  rewrite delete_take_drop, elem_of_app. intros [Hin|Hin]; [|done].
  apply (Hl x Hin). left.
Qed.

(** ** Looking a recording up by its identifier *)

Lemma find_id_Some (l : list Recording) id0 r :
  List.find (λ r, bool_decide (id r = id0)) l = Some r → id r = id0 ∧ r ∈ l.
Proof.
  intros [Hin Hb]%List.find_some. apply bool_decide_eq_true in Hb.
  split; [done|]. by apply list_elem_of_In.
Qed.

Lemma find_id_None (l : list Recording) id0 :
  List.find (λ r, bool_decide (id r = id0)) l = None ↔ id0 ∉ id <$> l.
Proof.
  split.
  - intros Hnone (r & -> & Hr)%list_elem_of_fmap.
    apply list_elem_of_In in Hr.
    pose proof (List.find_none _ _ Hnone r Hr) as Hb. cbn in Hb.
    by rewrite bool_decide_eq_false in Hb.
  - intros Hnot. destruct (List.find _ l) as [r|] eqn:Hf; [|done].
    apply find_id_Some in Hf as [<- Hr]. destruct Hnot.
    apply list_elem_of_fmap. eauto.
Qed.

Lemma status_of_Some i l a :
  status_of i l = Some a → ∃ r, r ∈ l ∧ id r = i ∧ status r = a.
Proof.
  unfold status_of. destruct (List.find _ l) as [r|] eqn:Hf; [|done].
  intros [= <-]. apply find_id_Some in Hf as [? ?]. eauto.
Qed.

Lemma status_of_None i (l : list Recording) :
  status_of i l = None ↔ i ∉ id <$> l.
Proof.
  unfold status_of. rewrite <- find_id_None.
  destruct (List.find _ l); cbn; split; congruence.
Qed.

Lemma status_of_cons i r l :
  status_of i (r :: l)
  = if decide (id r = i) then Some (status r) else status_of i l.
Proof. unfold status_of. cbn. case_bool_decide; by case_decide. Qed.

Lemma status_of_elem l r :
  NoDup (id <$> l) → r ∈ l → status_of (id r) l = Some (status r).
Proof.
  induction l as [|x l IH]; [by intros _ ?%elem_of_nil|].
  rewrite fmap_cons, NoDup_cons, status_of_cons. intros [Hx Hl] Hr.
  apply elem_of_cons in Hr as [->|Hr]; [by rewrite decide_True|].
  rewrite decide_False; [auto|]. intros Heq. apply Hx. rewrite Heq.
  apply list_elem_of_fmap. eauto.
Qed.

Lemma status_of_filter id0 i l :
  status_of i (filter (λ r, id r ≠ id0) l)
  = if decide (i = id0) then None else status_of i l.
Proof.
  induction l as [|r l IH]; [by case_decide|].
  rewrite filter_cons. destruct (decide (id r ≠ id0)) as [Hne|Heq%dec_stable].
  - rewrite !status_of_cons, IH.
    destruct (decide (id r = i)) as [<-|]; [by rewrite decide_False|done].
  - rewrite IH, status_of_cons. case_decide; [done|].
    rewrite decide_False; congruence.
Qed.

(** ** The updates of the transcription flow *)

Lemma markLoading_rewrites id0 l :
  ∃ f, markLoading id0 l = f <$> l ∧ rewrites id0 LOADING f.
Proof. eexists. split; [reflexivity|]. intros r. by case_decide. Qed.

Lemma settle_rewrites id0 result l :
  ∃ f, settle id0 result l = f <$> l ∧ rewrites id0 (settled_status result) f.
Proof.
  destruct result; (eexists; split; [reflexivity|]); intros r; by case_decide.
Qed.

Lemma rewrites_ids id0 s f (l : list Recording) :
  rewrites id0 s f → id <$> (f <$> l) = id <$> l.
Proof.
  intros Hf. rewrite <- list_fmap_compose. apply list_fmap_ext.
  intros _ r _. apply Hf.
Qed.

Lemma rewrites_creation id0 s f (l : list Recording) :
  rewrites id0 s f → creation <$> (f <$> l) = creation <$> l.
Proof.
  intros Hf. rewrite <- list_fmap_compose. apply list_fmap_ext.
  intros _ r _. unfold creation. cbn. destruct (Hf r) as (-> & -> & _). done.
Qed.

Lemma rewrites_frame id0 s f (prev : list Recording) :
  rewrites id0 s f →
  length (f <$> prev) = length prev ∧
  (∀ i r, prev !! i = Some r → id r ≠ id0 → (f <$> prev) !! i = Some r) ∧
  id <$> (f <$> prev) = id <$> prev ∧
  (id0 ∉ id <$> prev → f <$> prev = prev).
Proof.
  intros Hf. split; [by rewrite length_fmap|]. split; [|split].
  - intros i r Hi Hne. rewrite list_lookup_fmap, Hi. cbn.
    f_equal. by apply Hf.
  - by eapply rewrites_ids.
  - intros Hnot. rewrite <- (list_fmap_id prev) at 2.
    apply list_fmap_ext. intros i r Hi. apply Hf. intros <-.
    apply Hnot, list_elem_of_fmap. exists r. split; [done|].
    by apply list_elem_of_lookup_2 in Hi.
Qed.

Lemma status_of_rewrites id0 s f i l :
  rewrites id0 s f →
  status_of i (f <$> l)
  = if decide (i = id0) then (λ _, s) <$> status_of i l else status_of i l.
Proof.
  intros Hf. induction l as [|r l IH]; [by case_decide|].
  rewrite fmap_cons, !status_of_cons, IH.
  destruct (Hf r) as (-> & _ & Hother & Hsame).
  destruct (decide (id r = i)) as [<-|]; [|done].
  case_decide; cbn; [by rewrite Hsame|by rewrite Hother].
Qed.

(** ** What a step does to the list and to the awaited transcriptions *)

Lemma step_change e w :
  valid e w →
  change (recordings (state w)) (transcriptions (browser w))
    (now (browser w)) e
    (recordings (state (step e w))) (transcriptions (browser (step e w))).
Proof.
  intros Hvalid. destruct e; cbn [step].
  - apply change_none.
  - apply change_none.
  - world w. cbn. destruct (take_at _ _) as [[? ?]|]; [|apply change_none].
    destruct granted; apply change_none.
  - world w. unfold ondataavailable. case_decide; apply change_none.
  - world w. cbn. destruct (_ !! _) as [[? ?]|]; apply change_none.
  - world w. unfold stopRecording. cbn.
    destruct recorder, isRec; try apply change_none. cbn.
    destruct timer; [case_decide|]; apply change_none.
  - destruct Hvalid as [Hl Hp]. world w. cbn in *.
    destruct stops; [apply change_none|]. cbn. by apply change_create.
  - world w. destruct file; apply change_none.
  - destruct Hvalid as [Hl Hp]. world w. cbn in *.
    destruct (take_at _ _) as [[[? ?] ?]|]; [|apply change_none].
    destruct o; cbn; by apply change_create.
  - destruct (recordings (state w) !! i) as [r|] eqn:Hi; [|apply change_none].
    unfold RecordingItem.handleTranscribe. case_decide; [|apply change_none].
    unfold handleTranscribe.
    destruct (List.find _ _) as [r'|] eqn:Hf.
    + world w. cbn in *. by apply change_request.
    + apply find_id_None in Hf. destruct Hf. apply list_elem_of_fmap.
      exists r. split; [done|]. by apply list_elem_of_lookup_2 in Hi.
  - unfold take_at.
    destruct (transcriptions (browser w) !! k) as [[id0 b]|] eqn:Hk;
      [|apply change_none].
    cbn. world w. cbn in *. unfold handleTranscribe_resume.
    pose proof (change_settle recs pend now0 k env id0 b Hk) as Hc.
    unfold settle in Hc. by destruct (GeminiService.transcribeAudio env b).2.
  - destruct (recordings (state w) !! i) as [r|] eqn:Hi; [|apply change_none].
    world w. cbn in *. by apply change_delete.
Qed.

Lemma step_clock e w :
  valid e w → (now (browser w) ≤ now (browser (step e w)))%Z.
Proof.
  intros Hvalid. destruct e; cbn [step].
  - world w. cbn in *. lia.
  - by world w.
  - world w. cbn. destruct (take_at _ _) as [[? ?]|]; [|done].
    by destruct granted.
  - world w. unfold ondataavailable. by case_decide.
  - world w. cbn. by destruct (_ !! _) as [[? ?]|].
  - world w. unfold stopRecording. cbn.
    destruct recorder, isRec; try done. cbn.
    destruct timer; [case_decide|]; done.
  - world w. cbn. by destruct stops.
  - world w. by destruct file.
  - world w. cbn. destruct (take_at _ _) as [[[? ?] ?]|]; [|done].
    by destruct o.
  - destruct (recordings (state w) !! i); [|done].
    unfold RecordingItem.handleTranscribe. case_decide; [|done].
    unfold handleTranscribe. destruct (List.find _ _); by world w.
  - destruct (take_at _ _) as [[[? ?] ?]|]; [|done].
    unfold handleTranscribe_resume.
    destruct (GeminiService.transcribeAudio _ _).2; by world w.
  - destruct (recordings (state w) !! i); by world w.
Qed.

(** The request half of the flow, on an item that may be transcribed. *)
Lemma step_request w i r :
  consistent_world w →
  recordings (state w) !! i = Some r →
  status r = IDLE ∨ status r = ERROR →
  let w' := step (ClickTranscribe i) w in
  recordings (state w') = markLoading (id r) (recordings (state w)) ∧
  transcriptions (browser w')
  = transcriptions (browser w) ++ [(id r, blob r)].
Proof.
  intros [Hids _ _] Hi Hs. cbn [step]. rewrite Hi.
  unfold RecordingItem.handleTranscribe. rewrite decide_True by done.
  unfold handleTranscribe.
  assert (r ∈ recordings (state w)) as Hr
    by by apply list_elem_of_lookup_2 in Hi.
  destruct (List.find _ _) as [r'|] eqn:Hf.
  - apply find_id_Some in Hf as [Hid Hr'].
    assert (r' = r) as ->.
    { apply list_elem_of_lookup in Hr as [j Hj], Hr' as [j' Hj'].
      assert (j' = j) as ->; [|congruence].
      eapply NoDup_lookup; [exact Hids| |];
        rewrite list_lookup_fmap; [by rewrite Hj'|rewrite Hj; cbn; congruence]. }
    by world w.
  - apply find_id_None in Hf. destruct Hf. apply list_elem_of_fmap. eauto.
Qed.

(** The other half: the awaited call settles. *)
Lemma step_settle w k env id0 b :
  transcriptions (browser w) !! k = Some (id0, b) →
  let w' := step (TranscriptionSettled k env) w in
  recordings (state w')
  = settle id0 (GeminiService.transcribeAudio env b).2
      (recordings (state w)) ∧
  transcriptions (browser w') = delete k (transcriptions (browser w)).
Proof.
  intros Hk. cbn [step]. unfold take_at. rewrite Hk. cbn.
  unfold handleTranscribe_resume, settle.
  destruct (GeminiService.transcribeAudio env b).2; by world w.
Qed.

(** What an event of the flow for [id0] does to the list. *)
Lemma step_flow e w id0 :
  targets e w id0 →
  recordings (state (step e w)) = recordings (state w) ∨
  ∃ s f, rewrites id0 s f ∧
         recordings (state (step e w)) = f <$> recordings (state w).
Proof.
  destruct e; try done; cbn [targets step].
  - destruct (recordings (state w) !! i) as [r|] eqn:Hi; [|done].
    cbn. intros [= <-]. unfold RecordingItem.handleTranscribe.
    case_decide; [|by left]. unfold handleTranscribe.
    destruct (List.find _ _); [|by left].
    right.
    destruct (markLoading_rewrites (id r) (recordings (state w)))
      as (f & Hmap & Hf).
    exists LOADING, f. split; [done|]. rewrite <- Hmap. by world w.
  - destruct (transcriptions (browser w) !! k) as [[i b]|] eqn:Hk; [|done].
    cbn. intros [= <-]. right.
    destruct (step_settle w k env i b Hk) as [Hl _].
    destruct (settle_rewrites i (GeminiService.transcribeAudio env b).2
                (recordings (state w))) as (f & Hmap & Hf).
    eexists _, f. split; [done|]. by rewrite <- Hmap.
Qed.

(** ** Invariants *)

Lemma change_consistent l p t e l' p' :
  change l p t e l' p' → consistent l p → consistent l' p'.
Proof.
  intros Hc [Hids Hp Hload].
  destruct Hc as [e|e r Hs Ht Hl Hpr|i r b Hi Hs|k env id0 b Hk|i r Hi].
  - done.
  - split; [|done|].
    + rewrite fmap_cons. by apply NoDup_cons.
    + intros r' [->|Hr']%elem_of_cons; [|auto].
      rewrite Hs. split; [done|by intros ?].
  - assert (r ∈ l) as Hr by by apply list_elem_of_lookup_2 in Hi.
    assert (id r ∉ fst <$> p) as Hfree.
    { rewrite <- Hload by done. destruct Hs as [-> | ->]; done. }
    destruct (markLoading_rewrites (id r) l) as (f & -> & Hf). split.
    + by rewrite (rewrites_ids _ _ _ _ Hf).
    + rewrite fmap_app. apply NoDup_app. split; [done|]. split.
      * intros x Hx [->|[]%elem_of_nil]%elem_of_cons. done.
      * cbn. apply NoDup_singleton.
    + intros r' (r0 & -> & Hr0)%list_elem_of_fmap.
      destruct (Hf r0) as (Hid & _ & Hother & Hsame).
      rewrite fmap_app, elem_of_app, Hid. cbn. rewrite list_elem_of_singleton.
      destruct (decide (id r0 = id r)) as [Heq|Hne].
      * rewrite (Hsame Heq). tauto.
      * rewrite (Hother Hne), (Hload r0 Hr0). tauto.
  - assert ((fst <$> p) !! k = Some id0) as Hk'
      by by rewrite list_lookup_fmap, Hk.
    destruct (settle_rewrites id0 (GeminiService.transcribeAudio env b).2 l)
      as (f & -> & Hf). split.
    + by rewrite (rewrites_ids _ _ _ _ Hf).
    + rewrite list_fmap_delete.
      eapply sublist_NoDup; [done|apply sublist_delete].
    + intros r' (r0 & -> & Hr0)%list_elem_of_fmap.
      destruct (Hf r0) as (Hid & _ & Hother & Hsame).
      rewrite list_fmap_delete, Hid.
      destruct (decide (id r0 = id0)) as [Heq|Hne].
      * rewrite (Hsame Heq), Heq. split.
        -- by destruct (GeminiService.transcribeAudio env b).2.
        -- intros Hin. by apply (delete_NoDup _ _ _ Hp Hk') in Hin.
      * rewrite (Hother Hne), (delete_elem _ _ _ _ Hk' Hne). auto.
  - split; [|done|].
    + eapply sublist_NoDup; [exact Hids|].
      apply fmap_sublist, sublist_filter.
    + intros r' [_ Hr']%list_elem_of_filter. auto.
Qed.

Lemma reachable_consistent w : reachable w → consistent_world w.
Proof.
  induction 1 as [t0|w e Hw IH Hvalid].
  - split; cbn; [constructor|constructor|by intros r ?%elem_of_nil].
  - eapply change_consistent; [by apply step_change|done].
Qed.

Lemma run_reachable es w : reachable w → valid_run es w → reachable (run es w).
Proof.
  revert w. induction es as [|e es IH]; intros w Hw; [done|].
  intros [He Hes]. apply IH; [by constructor|done].
Qed.

(** ** The status of a recording *)

Lemma change_transition l p t e l' p' i a b :
  consistent l p → change l p t e l' p' →
  status_of i l = Some a → status_of i l' = Some b →
  a = b ∨
  (∃ j, e = ClickTranscribe j ∧ (a = IDLE ∨ a = ERROR) ∧ b = LOADING) ∨
  (∃ k env, e = TranscriptionSettled k env ∧
            a = LOADING ∧ (b = SUCCESS ∨ b = ERROR)).
Proof.
  intros [Hids Hp Hload] Hc Ha.
  destruct Hc as [e|e r Hs Ht Hl Hpr|j r b0 Hj Hs|k env id0 b0 Hk|j r Hj].
  - rewrite Ha. intros [= ->]. by left.
  - rewrite status_of_cons.
    case_decide as Hid; [|rewrite Ha; intros [= ->]; by left].
    apply status_of_Some in Ha as (r0 & Hr0 & <- & _). destruct Hl.
    rewrite Hid. apply list_elem_of_fmap. eauto.
  - destruct (markLoading_rewrites (id r) l) as (f & -> & Hf).
    rewrite (status_of_rewrites _ _ _ _ _ Hf), Ha.
    case_decide as Hid; [|intros [= ->]; by left].
    cbn. intros [= <-]. right. left. exists j. split; [done|]. split; [|done].
    subst i.
    rewrite status_of_elem in Ha;
      [|done|by apply list_elem_of_lookup_2 in Hj].
    injection Ha as <-. done.
  - destruct (settle_rewrites id0 (GeminiService.transcribeAudio env b0).2 l)
      as (f & -> & Hf).
    rewrite (status_of_rewrites _ _ _ _ _ Hf), Ha.
    case_decide as Hid; [|intros [= ->]; by left].
    cbn. intros [= <-]. right. right. exists k, env. split; [done|]. split.
    + apply status_of_Some in Ha as (r0 & Hr0 & Hid0 & <-).
      apply Hload; [done|]. rewrite Hid0, Hid. apply list_elem_of_fmap.
      exists (id0, b0). split; [done|]. by apply list_elem_of_lookup_2 in Hk.
    + destruct (GeminiService.transcribeAudio env b0).2; auto.
  - rewrite status_of_filter. case_decide; [done|].
    rewrite Ha. intros [= ->]. by left.
Qed.

Lemma change_birth l p t e l' p' i b :
  change l p t e l' p' →
  status_of i l = None → status_of i l' = Some b → b = IDLE.
Proof.
  intros Hc Ha.
  destruct Hc as [e|e r Hs Ht Hl Hpr|j r b0 Hj Hs|k env id0 b0 Hk|j r Hj].
  - by rewrite Ha.
  - rewrite status_of_cons, Ha. case_decide; [|done]. congruence.
  - destruct (markLoading_rewrites (id r) l) as (f & -> & Hf).
    rewrite (status_of_rewrites _ _ _ _ _ Hf), Ha. by case_decide.
  - destruct (settle_rewrites id0 (GeminiService.transcribeAudio env b0).2 l)
      as (f & -> & Hf).
    rewrite (status_of_rewrites _ _ _ _ _ Hf), Ha. by case_decide.
  - rewrite status_of_filter, Ha. by case_decide.
Qed.

(** C1.  In every reachable state and for every event:
    - the transcribe button of an item is honoured only when the item is
      idle or in error: then its status becomes loading and a call of
      [transcribeAudio] on its blob is awaited; otherwise nothing changes;
    - when an awaited call settles and its recording is still listed, that
      recording was loading and becomes success (the call returned) or
      error (the call threw);
    - every loading recording has an awaited call;
    - the status of an identifier changes in no other way: it is kept, or
      goes from idle or error to loading by a request, or from loading to
      success or error by a settled call;
    - a recording that appears is idle. *)
Theorem status_transitions w e :
  reachable w → valid e w →
  let l := recordings (state w) in
  let w' := step e w in
  let l' := recordings (state w') in
  (∀ i r, e = ClickTranscribe i → l !! i = Some r →
     if decide (status r = IDLE ∨ status r = ERROR)
     then status_of (id r) l' = Some LOADING ∧
          (id r, blob r) ∈ transcriptions (browser w')
     else w' = w) ∧
  (∀ k env id0 b, e = TranscriptionSettled k env →
     transcriptions (browser w) !! k = Some (id0, b) →
     id0 ∈ id <$> l →
     status_of id0 l = Some LOADING ∧
     status_of id0 l'
     = Some (settled_status (GeminiService.transcribeAudio env b).2)) ∧
  (∀ r, r ∈ l → status r = LOADING →
     id r ∈ fst <$> transcriptions (browser w)) ∧
  (∀ i a b, status_of i l = Some a → status_of i l' = Some b →
     a = b ∨
     (∃ j, e = ClickTranscribe j ∧ (a = IDLE ∨ a = ERROR) ∧ b = LOADING) ∨
     (∃ k env, e = TranscriptionSettled k env ∧
               a = LOADING ∧ (b = SUCCESS ∨ b = ERROR))) ∧
  (∀ i b, status_of i l = None → status_of i l' = Some b → b = IDLE).
Proof.
  intros Hw%reachable_consistent Hvalid. cbn zeta.
  pose proof (step_change e w Hvalid) as Hc.
  split; [|split; [|split; [|split]]].
  - intros i r -> Hi. case_decide as Hs.
    + destruct (step_request w i r Hw Hi Hs) as [-> ->].
      destruct (markLoading_rewrites (id r) (recordings (state w)))
        as (f & -> & Hf).
      rewrite (status_of_rewrites _ _ _ _ _ Hf), decide_True by done.
      rewrite status_of_elem;
        [|apply Hw|by apply list_elem_of_lookup_2 in Hi].
      split; [done|]. apply elem_of_app. right. left.
    + cbn [step]. rewrite Hi. unfold RecordingItem.handleTranscribe.
      by rewrite decide_False.
  - intros k env id0 b -> Hk Hin.
    destruct (step_settle w k env id0 b Hk) as [-> _].
    destruct (settle_rewrites id0 (GeminiService.transcribeAudio env b).2
                (recordings (state w))) as (f & -> & Hf).
    rewrite (status_of_rewrites _ _ _ _ _ Hf), decide_True by done.
    apply list_elem_of_fmap in Hin as (r & -> & Hr).
    assert (status r = LOADING) as Hs.
    { apply Hw; [done|]. apply list_elem_of_fmap. exists (id r, b).
      split; [done|]. by apply list_elem_of_lookup_2 in Hk. }
    rewrite status_of_elem; [|apply Hw|done]. by rewrite Hs.
  - intros r Hr Hs. by apply Hw.
  - intros i a b. by eapply change_transition.
  - intros i b. by eapply change_birth.
Qed.

Lemma status_transitions_witness :
  reachable listed ∧ valid (ClickTranscribe 0) listed ∧
  status_of "a" (recordings (state listed)) = Some IDLE ∧
  status_of "a" (recordings (state (step (ClickTranscribe 0) listed)))
  = Some LOADING.
Proof.
  assert (reachable listed) as Hreach.
  { apply run_reachable; [constructor|].
    apply (bool_decide_unpack _). vm_compute. exact I. }
  split; [exact Hreach|]. split; [exact I|]. split; [reflexivity|].
  destruct (status_transitions listed (ClickTranscribe 0) Hreach I)
    as [Hrequest _].
  pose proof (Hrequest 0%nat _ eq_refl eq_refl) as H.
  rewrite decide_True in H by (left; reflexivity).
  exact (proj1 H).
Defined.

(** ** A failed transcription *)

(** C4.  When the call of [transcribeAudio] awaited for [id0] throws,
    whatever it throws, every listed recording carrying [id0] gets status
    error and the one fixed message [TRANSCRIPTION_FAILED]. *)
Theorem transcription_failure w k env id0 b reason :
  transcriptions (browser w) !! k = Some (id0, b) →
  (GeminiService.transcribeAudio env b).2 = Rejected reason →
  let w' := step (TranscriptionSettled k env) w in
  ∀ i r, recordings (state w) !! i = Some r → id r = id0 →
    ∃ r', recordings (state w') !! i = Some r' ∧ id r' = id0 ∧
          status r' = ERROR ∧ error r' = Some TRANSCRIPTION_FAILED.
Proof.
  intros Hk Hfail. cbn zeta.
  destruct (step_settle w k env id0 b Hk) as [-> _].
  rewrite Hfail. intros i r Hi Hid. unfold settle, markError.
  rewrite list_lookup_fmap, Hi. cbn. rewrite decide_True by done. eauto.
Qed.

Lemma transcription_failure_witness :
  transcriptions (browser awaiting) !! 0%nat
  = Some ("a", file_blob sample_file) ∧
  (GeminiService.transcribeAudio offline (file_blob sample_file)).2
  = Rejected {| message := Some "fetch failed" |} ∧
  ∃ r',
    recordings (state (step (TranscriptionSettled 0 offline) awaiting)) !! 0%nat
    = Some r' ∧
    id r' = "a" ∧ status r' = ERROR ∧ error r' = Some TRANSCRIPTION_FAILED.
Proof.
  split; [reflexivity|]. split; [reflexivity|].
  eapply (transcription_failure awaiting 0 offline "a" (file_blob sample_file));
    reflexivity.
Defined.

(** ** The frame of the transcription flow *)

(** C5.  An event of the transcription flow for [id0] (the request, or
    the settling of the awaited call, successful or not) keeps the length of
    the list, keeps at its place every recording whose identifier is not
    [id0], and keeps the identifiers in their order; when no listed
    recording carries [id0] the list is left as it was, so that the result
    of the call is stored nowhere. *)
Theorem transcription_frame e w id0 :
  targets e w id0 →
  let prev := recordings (state w) in
  let next := recordings (state (step e w)) in
  length next = length prev ∧
  (∀ i r, prev !! i = Some r → id r ≠ id0 → next !! i = Some r) ∧
  id <$> next = id <$> prev ∧
  (id0 ∉ id <$> prev → next = prev).
Proof.
  intros [->|(s & f & Hf & ->)]%step_flow; cbn zeta; [done|].
  by eapply rewrites_frame.
Qed.

Lemma transcription_frame_witness :
  targets (TranscriptionSettled 0 offline) orphaned "a" ∧
  recordings (state (step (TranscriptionSettled 0 offline) orphaned))
  = recordings (state orphaned).
Proof.
  split; [reflexivity|].
  apply (transcription_frame (TranscriptionSettled 0 offline) orphaned "a");
    [reflexivity|].
  vm_compute. by intros ?%elem_of_nil.
Defined.

(** ** Deleting a recording *)

(** C10.  What [handleDelete id0] leaves of the list is a sublist of it
    (the recordings left are untouched and in their order), holds no
    recording carrying [id0], and holds every sublist that has none: exactly
    the recordings carrying [id0] are gone.  When no recording carries
    [id0] the list is unchanged. *)
Theorem handleDelete_exact id0 w :
  let prev := recordings (state w) in
  let next := recordings (state (handleDelete id0 w)) in
  next `sublist_of` prev ∧
  (∀ r, r ∈ next → id r ≠ id0) ∧
  (∀ l, l `sublist_of` prev → (∀ r, r ∈ l → id r ≠ id0) →
        l `sublist_of` next) ∧
  ((∀ r, r ∈ prev → id r ≠ id0) → next = prev).
Proof.
  cbn. repeat split.
  - apply sublist_filter.
  - intros r Hr. by apply list_elem_of_filter in Hr as [? _].
  - intros l Hl Hall. apply sublist_into_filter; [done|].
    by apply Forall_forall.
  - intros Hall. apply filter_all. by apply Forall_forall.
Qed.

(** Deleting does not touch the object-URL store. *)
Lemma handleDelete_keeps_store id0 w :
  objectURLs (browser (handleDelete id0 w)) = objectURLs (browser w).
Proof. by world w. Qed.

(** [getAudioDuration] revokes the URL it made, however the probe ends. *)
Lemma getAudioDuration_revokes url blob o store :
  (AudioUtils.getAudioDuration_settle url o
     (AudioUtils.getAudioDuration_begin url blob store)).1 !! url = None.
Proof.
  unfold AudioUtils.getAudioDuration_begin, URL.createObjectURL.
  destruct o; cbn; unfold URL.revokeObjectURL; apply lookup_delete_eq.
Qed.

(** C3.  The code at a concrete input: a file is uploaded (recording ["a"]
    with object URL ["blob:a"]) and deleted.  The recording leaves the
    list, but ["blob:a"] is still live in the store and still stands for
    the blob, whereas the URL made by [getAudioDuration] for its probe was
    revoked. *)
Lemma delete_keeps_object_url :
  let deleted := step (ClickDelete 0) listed in
  url <$> recordings (state listed) = ["blob:a"] ∧
  recordings (state deleted) = [] ∧
  objectURLs (browser deleted) !! "blob:a" = Some (file_blob sample_file) ∧
  objectURLs (browser deleted) !! "blob:probe" = None.
Proof. repeat split; vm_compute; reflexivity. Qed.

(** ** The duration of a capture *)

(** [onstop] stores what its closure holds, whatever the timer shows. *)
Lemma onstop_duration mediaRecorder uuid url w :
  duration <$> head (recordings (state (onstop mediaRecorder uuid url w)))
  = Some (closure_recordingTime mediaRecorder).
Proof. by world w. Qed.

(** C2.  The code at a concrete input: the page is loaded, recording starts,
    five seconds pass and the timer shows [5]; the capture is stopped.  The
    recording created stores the duration [0]: the [recordingTime] of the
    render in which recording was started, not the timer's at the stop. *)
Lemma capture_duration_is_stale :
  let recording := run capture (init 1000) in
  let stopped := run (stop "a" "blob:a") recording in
  (recordingTime (state recording) == 5)%Q ∧
  duration <$> recordings (state stopped) = [0%Q].
Proof. split; reflexivity. Qed.

(** ** Newest first *)

(** Order and dates are read off the creation keys. *)
Lemma chronological_keys t (l : list Recording) :
  chronological t l ↔
  StronglySorted (λ a b, b.2 ≤ a.2)%Z (creation <$> l) ∧
  Forall (λ c, c.2 ≤ t)%Z (creation <$> l).
Proof.
  assert (∀ (P : string * Z → Prop) (k : list Recording),
            Forall P (creation <$> k) ↔ Forall (λ r, P (creation r)) k) as Hmap.
  { intros P k. rewrite !Forall_forall. split.
    - intros H r Hr. apply H, list_elem_of_fmap. eauto.
    - intros H c (r & -> & Hr)%list_elem_of_fmap. auto. }
  rewrite Hmap. split.
  - intros [Hsorted Hpast]. split; [|done]. clear Hpast.
    induction Hsorted as [|r l Hl IH Hr]; [constructor|].
    rewrite fmap_cons. constructor; [done|]. by apply Hmap.
  - intros [Hsorted Hpast]. split; [|done]. clear Hpast.
    induction l as [|r l IH]; [constructor|].
    rewrite fmap_cons in Hsorted.
    apply StronglySorted_cons in Hsorted as [Hr Hl].
    constructor; [auto|]. by apply Hmap in Hr.
Qed.

Lemma chronological_creation t (l l' : list Recording) :
  creation <$> l' `sublist_of` creation <$> l →
  chronological t l → chronological t l'.
Proof.
  rewrite !chronological_keys. intros Hsub [Hsorted Hpast].
  split; [by eapply sublist_StronglySorted|by eapply sublist_Forall].
Qed.

(** An event puts one new recording in front, or keeps the recordings that
    stay in their order. *)
Lemma change_order l p t e l' p' :
  change l p t e l' p' →
  (∃ r, l' = r :: l ∧ timestamp r = t) ∨
  creation <$> l' `sublist_of` creation <$> l.
Proof.
  destruct 1 as [e|e r Hs Ht Hl Hpr|j r b0 Hj Hs|k env id0 b0 Hk|j r Hj].
  - by right.
  - left. eauto.
  - destruct (markLoading_rewrites (id r) l) as (f & -> & Hf).
    right. by rewrite (rewrites_creation _ _ _ _ Hf).
  - destruct (settle_rewrites id0 (GeminiService.transcribeAudio env b0).2 l)
      as (f & -> & Hf).
    right. by rewrite (rewrites_creation _ _ _ _ Hf).
  - right. apply fmap_sublist, sublist_filter.
Qed.

Lemma change_chronological l p t e l' p' :
  change l p t e l' p' → chronological t l → chronological t l'.
Proof.
  intros [(r & -> & Hr)|Hsub]%change_order Hl.
  - destruct Hl as [Hsorted Hpast]. split.
    + apply StronglySorted_cons. split; [|done].
      eapply Forall_impl; [exact Hpast|].
      intros x Hx. unfold newer. by rewrite Hr.
    + constructor; [lia|done].
  - by eapply chronological_creation.
Qed.

Lemma reachable_chronological w :
  reachable w → chronological (now (browser w)) (recordings (state w)).
Proof.
  induction 1 as [t0|w e Hw IH Hvalid].
  - split; constructor.
  - pose proof (step_clock e w Hvalid) as Hclock.
    apply (change_chronological _ _ _ _ _ _ (step_change e w Hvalid)) in IH
      as [Hsorted Hpast].
    split; [done|]. eapply Forall_impl; [exact Hpast|]. cbn. intros. lia.
Qed.

(** C6.  In every reachable state the list is sorted by creation time,
    newest first.  Both creation paths (the [stop] event of a capture, the
    loaded metadata of a chosen file) put the new recording, dated by the
    clock, in front of the list; and every event either does that or keeps
    the recordings that stay in the order they had. *)
Theorem recordings_newest_first w :
  reachable w →
  let prev := recordings (state w) in
  StronglySorted newer prev ∧
  (∀ mediaRecorder rest uuid url,
     stopEvents (browser w) = mediaRecorder :: rest →
     ∃ r, recordings (state (step (RecorderStopped uuid url) w)) = r :: prev ∧
          creation r = (uuid, now (browser w))) ∧
  (∀ k job o uuid url,
     metadataLoads (browser w) !! k = Some job →
     ∃ r, recordings (state (step (MetadataSettled k o uuid url) w))
          = r :: prev ∧
          creation r = (uuid, now (browser w))) ∧
  (∀ e, valid e w →
     let next := recordings (state (step e w)) in
     (∃ r, next = r :: prev ∧ timestamp r = now (browser w)) ∨
     creation <$> next `sublist_of` creation <$> prev).
Proof.
  intros Hw. cbn zeta. split; [by apply reachable_chronological|].
  split; [|split].
  - intros mr rest uuid url Hq. cbn [step]. rewrite Hq. world w. cbn. eauto.
  - intros k [file probe] o uuid url Hk. cbn [step]. unfold take_at.
    rewrite Hk. world w. destruct o; cbn; eauto.
  - intros e Hvalid. eapply change_order, step_change, Hvalid.
Qed.

Lemma recordings_newest_first_witness :
  reachable two_recordings ∧
  timestamp <$> recordings (state two_recordings) = [5250; 0]%Z ∧
  StronglySorted newer (recordings (state two_recordings)).
Proof.
  assert (reachable two_recordings) as Hreach.
  { apply run_reachable; [constructor|].
    apply (bool_decide_unpack _). vm_compute. exact I. }
  split; [exact Hreach|]. split; [reflexivity|].
  exact (proj1 (recordings_newest_first two_recordings Hreach)).
Defined.

(* ===================================================================== *)
(** * Further proofs                                                      *)
(* ===================================================================== *)

(** ** Reading a blob as base64 *)

Lemma split_comma_free s : comma_free s = true → split "," s = [s].
Proof.
  induction s as [|c s IH]; [done|]. cbn.
  intros [Hc Hs]%andb_prop. apply negb_true_iff in Hc. rewrite Hc.
  by rewrite (IH Hs).
Qed.

Lemma split_at_comma prefix rest :
  comma_free prefix = true →
  split "," (prefix +:+ String "," rest) = prefix :: split "," rest.
Proof.
  induction prefix as [|c p IH].
  - intros _. change ("" +:+ String "," rest) with (String "," rest). done.
  - change (String c p +:+ String "," rest)
      with (String c (p +:+ String "," rest)).
    cbn. intros [Hc Hp]%andb_prop. apply negb_true_iff in Hc. rewrite Hc.
    by rewrite (IH Hp).
Qed.

(** X1.  [blobToBase64] rejects when the reader fails; resolves with
    [undefined] when what was read holds no comma; and for a data URL, a
    comma-free header followed by a comma and a comma-free payload, it
    resolves with exactly the payload. *)
Theorem blobToBase64_payload read blob :
  match read blob with
  | None => AudioUtils.blobToBase64 read blob = Rejected {| message := None |}
  | Some result =>
      (comma_free result = true →
       AudioUtils.blobToBase64 read blob = Fulfilled None) ∧
      (∀ prefix payload,
         result = prefix +:+ String "," payload →
         comma_free prefix = true → comma_free payload = true →
         AudioUtils.blobToBase64 read blob = Fulfilled (Some payload))
  end.
Proof.
  unfold AudioUtils.blobToBase64. destruct (read blob) as [result|]; [|done].
  split.
  - intros Hfree. by rewrite split_comma_free.
  - intros prefix payload -> Hp Hq.
    by rewrite split_at_comma, split_comma_free.
Qed.

(** ** What [transcribeAudio] can answer *)

Lemma or_else_nonempty s d : d ≠ "" → or_else s d ≠ "".
Proof. by destruct s. Qed.

Lemma opt_or_else_nonempty s d : d ≠ "" → opt_or_else s d ≠ "".
Proof. destruct s; [apply or_else_nonempty|done]. Qed.

(** X2.  [transcribeAudio] sends at most one request.  When the blob
    cannot be read it sends none and throws the default message.  A text it
    returns is never empty, and was answered to the one request sent.
    Whatever it throws carries a non-empty message: the message of what the
    endpoint threw when that is not empty. *)
Theorem transcribeAudio_outcomes env audioBlob :
  let call := GeminiService.transcribeAudio env audioBlob in
  (length call.1 ≤ 1)%nat ∧
  (GeminiService.readAsDataURL env audioBlob = None →
   call = ([], Rejected {| message := Some "Не удалось транскрибировать аудио." |})) ∧
  (∀ text, call.2 = Fulfilled text → text ≠ "" ∧ length call.1 = 1%nat) ∧
  (∀ reason, call.2 = Rejected reason →
     ∃ m, message reason = Some m ∧ m ≠ "") ∧
  (∀ p thrown m, call.1 = [p] →
     GeminiService.generateContent env p = Rejected thrown →
     message thrown = Some m → m ≠ "" →
     call.2 = Rejected {| message := Some m |}).
Proof.
  cbn zeta.
  unfold GeminiService.transcribeAudio, AudioUtils.blobToBase64.
  unfold GeminiService.await, GeminiService.call, GeminiService.try_catch,
    GeminiService.throw, mbind, mret, GeminiService.Async_bind,
    GeminiService.Async_ret.
  destruct (GeminiService.readAsDataURL env audioBlob) as [result|]; cbn.
  - match goal with
    | |- context [GeminiService.generateContent env ?q] =>
        destruct (GeminiService.generateContent env q) as [response|thrown] eqn:Hcall
    end; cbn.
    + split; [lia|]. split; [done|]. split; [|split; [done|]].
      * intros text [= <-]. split; [by apply opt_or_else_nonempty|done].
      * intros p thrown m [= <-]. by rewrite Hcall.
    + split; [lia|]. split; [done|]. split; [done|]. split.
      * intros reason [= <-]. eexists. split; [done|].
        by apply opt_or_else_nonempty.
      * intros p thrown' m [= <-]. rewrite Hcall. intros [= <-] Hm Hne.
        rewrite Hm. cbn. by destruct m.
  - split; [lia|]. split; [done|]. split; [done|]. split; [|done].
    intros reason [= <-]. eexists. split; [done|]. done.
Qed.

(** ** Probing the duration of a file *)

(** X3.  [getAudioDuration] leaves the object-URL store as it found it,
    provided the URL minted for the probe was not live before; it resolves
    with the duration the element reports, and with [0] when that is
    infinite or the source cannot be loaded. *)
Theorem getAudioDuration_restores url blob o (store : URL.Store) :
  store !! url = None →
  AudioUtils.getAudioDuration_settle url o
    (AudioUtils.getAudioDuration_begin url blob store)
  = (store,
     match o with
     | AudioUtils.loadedmetadata (AudioUtils.Finite d) => d
     | _ => 0%Q
     end).
Proof.
  intros Hfresh.
  unfold AudioUtils.getAudioDuration_begin, URL.createObjectURL.
  destruct o as [[d|]|]; cbn; unfold URL.revokeObjectURL;
    by rewrite delete_insert_id.
Qed.

Lemma getAudioDuration_restores_witness :
  (∅ : URL.Store) !! "blob:probe" = None ∧
  AudioUtils.getAudioDuration_settle "blob:probe" AudioUtils.mediaerror
    (AudioUtils.getAudioDuration_begin "blob:probe" sample_chunk ∅)
  = (∅, 0%Q).
Proof.
  split; [reflexivity|].
  apply (getAudioDuration_restores "blob:probe" sample_chunk
           AudioUtils.mediaerror ∅).
  reflexivity.
Defined.

(** ** The geometry of a frame *)

Lemma byte_value_range b : (0 ≤ byte_value b ≤ 255)%Z.
Proof. destruct b; vm_compute; split; discriminate. Qed.

Lemma scaled_bounds b :
  byte_value b ≠ 0%Z →
  (3 * Observe.scaled b == 2 * inject_Z (byte_value b))%Q ∧
  (0 < Observe.scaled b)%Q ∧ (Observe.scaled b <= 170)%Q.
Proof.
  intros Hne. pose proof (byte_value_range b) as [Hlo Hhi].
  assert (1 ≤ byte_value b)%Z as Hpos by lia.
  unfold Observe.scaled. set (v := inject_Z (byte_value b)).
  assert (1 <= v)%Q as Hv1.
  { change 1%Q with (inject_Z 1). unfold v. by rewrite <- Zle_Qle. }
  assert (v <= 255)%Q as Hv2.
  { change 255%Q with (inject_Z 255). unfold v. by rewrite <- Zle_Qle. }
  assert (3 * (v / 1.5) == 2 * v)%Q as Heq by field.
  split; [exact Heq|]. split; lra.
Qed.

Lemma far_right width n i :
  (0 < width)%Q → (0 < n)%nat → (2 * n ≤ 5 * i)%nat →
  (width <= inject_Z (Z.of_nat i) * (Observe.barWidth width n + 1))%Q.
Proof.
  intros Hw Hn Hi. unfold Observe.barWidth.
  set (N := inject_Z (Z.of_nat n)). set (I := inject_Z (Z.of_nat i)).
  assert (0 < N)%Q as HN.
  { change 0%Q with (inject_Z 0). unfold N. rewrite <- Zlt_Qlt. lia. }
  assert (2 * N <= 5 * I)%Q as HI.
  { unfold N, I. change 2%Q with (inject_Z 2). change 5%Q with (inject_Z 5).
    rewrite <- !inject_Z_mult, <- Zle_Qle. lia. }
  set (q := (width / N)%Q).
  assert (width == q * N)%Q as Hq by (unfold q; field; lra).
  assert (0 < q)%Q as Hq0.
  { unfold q. apply Qlt_shift_div_l; lra. }
  rewrite Hq at 1.
  assert (0 <= q * (5 * I - 2 * N))%Q as Hprod.
  { apply Qmult_le_0_compat; lra. }
  assert (0 <= I)%Q by lra.
  assert (2.5 == 5 # 2)%Q as -> by reflexivity.
  nra.
Qed.

(** Where a rectangle of a frame comes from. *)
Lemma rect_origin width height dataArray ops x y w h :
  Visualizer.draw true width height dataArray = Some ops →
  (x, y, w, h) ∈ Observe.rects ops →
  ∃ i b, dataArray !! i = Some b ∧ byte_value b ≠ 0%Z ∧
         w = Observe.barWidth width (length dataArray) ∧
         x = Observe.bar_x w i ∧
         y = (height - Observe.scaled b)%Q ∧ h = Observe.scaled b.
Proof.
  unfold Visualizer.draw. cbn [negb]. intros [= <-].
  change (Observe.rects (Visualizer.clearRect 0 0 width height :: ?l))
    with (Observe.rects l).
  rewrite (rects_bars height _ dataArray 0%nat).
  intros ([i b] & Hin & Hbar)%list_elem_of_omap.
  apply elem_of_lookup_imap in Hin as (j & b' & [= -> ->] & Hj).
  cbn in Hbar. unfold Observe.bar_of in Hbar.
  case_decide as Hz; [done|]. injection Hbar as <- <- <- <-.
  exists j, b'. done.
Qed.

(** X4.  Every rectangle of a frame is the bar of a bin whose byte is not
    zero: it is [barWidth] wide, stands [i] bar widths and gaps from the
    left, rests on the bottom edge of the canvas ([y + h = height]), and is
    two thirds of the byte high, so above [0] and at most [170]. *)
Theorem bars_geometry width height dataArray ops x y w h :
  Visualizer.draw true width height dataArray = Some ops →
  (x, y, w, h) ∈ Observe.rects ops →
  ∃ i b, dataArray !! i = Some b ∧ byte_value b ≠ 0%Z ∧
         w = Observe.barWidth width (length dataArray) ∧
         (x == inject_Z (Z.of_nat i) * (w + 1))%Q ∧
         (y + h == height)%Q ∧
         (3 * h == 2 * inject_Z (byte_value b))%Q ∧
         (0 < h)%Q ∧ (h <= 170)%Q.
Proof.
  intros Hdraw Hin.
  destruct (rect_origin _ _ _ _ _ _ _ _ Hdraw Hin)
    as (i & b & Hi & Hb & Hw & -> & -> & ->).
  destruct (scaled_bounds b Hb) as (H3 & Hlo & Hhi).
  exists i, b. repeat (split; [done|]).
  split; [apply bar_x_closed|]. split; [ring|]. done.
Qed.

(** X5.  On a canvas of positive width, a bar that starts inside the
    canvas ([x < width]) belongs to a bin in the lowest two fifths of the
    spectrum ([5 * i < 2 * bufferLength]): the bars of all higher bins are
    drawn to the right of the canvas. *)
Theorem visible_bars_are_low_bins width height dataArray ops x y w h :
  Visualizer.draw true width height dataArray = Some ops →
  (x, y, w, h) ∈ Observe.rects ops →
  (0 < width)%Q → (x < width)%Q →
  ∃ i b, dataArray !! i = Some b ∧
         (x == inject_Z (Z.of_nat i) * (w + 1))%Q ∧
         (5 * i < 2 * length dataArray)%nat.
Proof.
  intros Hdraw Hin Hwidth Hx.
  destruct (rect_origin _ _ _ _ _ _ _ _ Hdraw Hin)
    as (i & b & Hi & Hb & -> & -> & _ & _).
  exists i, b. split; [done|]. split; [apply bar_x_closed|].
  destruct (decide (5 * i < 2 * length dataArray)%nat) as [|Hfar]; [done|].
  exfalso. apply (Qlt_not_le _ _ Hx). rewrite bar_x_closed.
  apply far_right; [done| |lia].
  apply lookup_lt_Some in Hi. lia.
Qed.


Lemma bars_geometry_witness :
  ∃ ops,
    Visualizer.draw true 600 128 spectrum = Some ops ∧
    (0%Q, 420 # 15, 15000 # 30, 1500 # 15) ∈ Observe.rects ops ∧
    ∃ i b, spectrum !! i = Some b ∧ byte_value b ≠ 0%Z ∧
         (15000 # 30) = Observe.barWidth 600 (length spectrum) ∧
         (0%Q == inject_Z (Z.of_nat i) * ((15000 # 30) + 1))%Q ∧
         ((420 # 15) + (1500 # 15) == 128)%Q ∧
         (3 * (1500 # 15) == 2 * inject_Z (byte_value b))%Q ∧
         (0 < 1500 # 15)%Q ∧ (1500 # 15 <= 170)%Q.
Proof.
  eexists. split; [reflexivity|]. split; [left|].
  eapply (bars_geometry 600 128 spectrum); [reflexivity|left].
Defined.

Lemma visible_bars_are_low_bins_witness :
  ∃ ops,
    Visualizer.draw true 600 128 spectrum = Some ops ∧
    (0%Q, 420 # 15, 15000 # 30, 1500 # 15) ∈ Observe.rects ops ∧
    (0 < 600)%Q ∧ (0 < 600)%Q ∧
    ∃ i b, spectrum !! i = Some b ∧
         (0%Q == inject_Z (Z.of_nat i) * ((15000 # 30) + 1))%Q ∧
         (5 * i < 2 * length spectrum)%nat.
Proof.
  eexists. split; [reflexivity|]. split; [left|].
  split; [reflexivity|]. split; [reflexivity|].
  eapply (visible_bars_are_low_bins 600 128 spectrum); [reflexivity|left|reflexivity|reflexivity].
Defined.

(** ** More on the reachable lists *)

(** X6.  In every reachable state the identifiers of the listed
    recordings are distinct, no identifier has two calls of
    [transcribeAudio] awaited at once, and a listed recording with an
    awaited call is loading. *)
Theorem one_call_per_recording w :
  reachable w →
  NoDup (id <$> recordings (state w)) ∧
  NoDup (fst <$> transcriptions (browser w)) ∧
  (∀ r, r ∈ recordings (state w) →
        id r ∈ fst <$> transcriptions (browser w) → status r = LOADING).
Proof.
  intros [Hids Hp Hload]%reachable_consistent.
  split; [done|]. split; [done|]. intros r Hr Hin. by apply Hload.
Qed.

Lemma one_call_per_recording_witness :
  reachable awaiting ∧
  NoDup (id <$> recordings (state awaiting)) ∧
  NoDup (fst <$> transcriptions (browser awaiting)) ∧
  (∀ r, r ∈ recordings (state awaiting) →
        id r ∈ fst <$> transcriptions (browser awaiting) →
        status r = LOADING).
Proof.
  assert (reachable awaiting) as Hreach.
  { apply run_reachable; [constructor|].
    apply (bool_decide_unpack _). vm_compute. exact I. }
  split; [exact Hreach|]. exact (one_call_per_recording awaiting Hreach).
Defined.

(** With distinct identifiers, two listed recordings with one identifier
    are one. *)
Lemma same_id_same_recording (l : list Recording) r r' :
  NoDup (id <$> l) → r ∈ l → r' ∈ l → id r = id r' → r = r'.
Proof.
  intros Hdup [j Hj]%list_elem_of_lookup [j' Hj']%list_elem_of_lookup Hid.
  assert (j = j') as ->; [|congruence].
  eapply NoDup_lookup; [exact Hdup| |];
    rewrite list_lookup_fmap; [by rewrite Hj|rewrite Hj'; cbn; congruence].
Qed.

Lemma filter_out_is_delete (l : list Recording) i r :
  NoDup (id <$> l) → l !! i = Some r →
  filter (λ r', id r' ≠ id r) l = delete i l.
Proof.
  revert i. induction l as [|x l IH]; intros i Hdup Hi; [done|].
  rewrite fmap_cons in Hdup. apply NoDup_cons in Hdup as [Hx Hl].
  destruct i as [|i]; cbn in Hi.
  - injection Hi as ->. rewrite filter_cons_False by (by intros ?).
    cbn. apply filter_all, Forall_forall. intros y Hy Heq.
    apply Hx. rewrite <- Heq. apply list_elem_of_fmap. eauto.
  - rewrite filter_cons_True.
    + cbn. f_equal. by apply IH.
    + intros Heq. apply Hx. rewrite Heq. apply list_elem_of_fmap.
      exists r. split; [done|]. by apply list_elem_of_lookup_2 in Hi.
Qed.

(** X7.  In every reachable state the delete button of the [i]-th item
    removes that item and no other: the list becomes the list without its
    [i]-th element. *)
Theorem delete_removes_one w i r :
  reachable w → recordings (state w) !! i = Some r →
  recordings (state (step (ClickDelete i) w)) = delete i (recordings (state w)).
Proof.
  intros [Hids _ _]%reachable_consistent Hi. cbn [step]. rewrite Hi.
  rewrite <- (filter_out_is_delete _ i r Hids Hi). by world w.
Qed.

Lemma delete_removes_one_witness :
  reachable two_recordings ∧
  id <$> recordings (state two_recordings) !! 1%nat = Some "a" ∧
  id <$> recordings (state (step (ClickDelete 1) two_recordings)) = ["b"].
Proof.
  assert (reachable two_recordings) as Hreach.
  { apply run_reachable; [constructor|].
    apply (bool_decide_unpack _). vm_compute. exact I. }
  split; [exact Hreach|]. split; [reflexivity|].
  erewrite (delete_removes_one two_recordings 1 _ Hreach); reflexivity.
Defined.

(** ** Status, transcript and error agree *)

Lemma transcribeAudio_text env b text :
  (GeminiService.transcribeAudio env b).2 = Fulfilled text → text ≠ "".
Proof.
  unfold GeminiService.transcribeAudio, AudioUtils.blobToBase64.
  unfold GeminiService.await, GeminiService.call, GeminiService.try_catch,
    GeminiService.throw, mbind, mret, GeminiService.Async_bind,
    GeminiService.Async_ret.
  destruct (GeminiService.readAsDataURL env b); cbn; [|done].
  destruct (GeminiService.generateContent env _); cbn; [|done].
  intros [= <-]. by apply opt_or_else_nonempty.
Qed.

Lemma step_coherent e w :
  valid e w → consistent_world w →
  Forall coherent (recordings (state w)) →
  Forall coherent (recordings (state (step e w))).
Proof.
  intros Hvalid Hw Hall. destruct e; cbn [step].
  - by world w.
  - by world w.
  - world w. cbn. destruct (take_at _ _) as [[? ?]|]; [|done].
    by destruct granted.
  - world w. unfold ondataavailable. by case_decide.
  - world w. cbn. by destruct (_ !! _) as [[? ?]|].
  - world w. unfold stopRecording. cbn.
    destruct recorder, isRec; try done. cbn.
    destruct timer; [case_decide|]; done.
  - world w. cbn in *. destruct stops; [done|]. cbn.
    constructor; [by split|done].
  - world w. by destruct file.
  - world w. cbn in *. destruct (take_at _ _) as [[[? ?] ?]|]; [|done].
    destruct o; cbn; (constructor; [by split|done]).
  - destruct (recordings (state w) !! i) as [r|] eqn:Hi; [|done].
    destruct (decide (status r = IDLE ∨ status r = ERROR)) as [Hs|Hs].
    + destruct (step_request w i r Hw Hi Hs) as [Hl _].
      cbn [step] in Hl. rewrite Hi in Hl. rewrite Hl.
      assert (r ∈ recordings (state w)) as Hr
        by by apply list_elem_of_lookup_2 in Hi.
      unfold markLoading. apply Forall_fmap, Forall_forall. intros r0 Hr0.
      pose proof (proj1 (Forall_forall _ _) Hall r0 Hr0) as Hc. cbn.
      case_decide as Hid; [|done].
      rewrite (same_id_same_recording _ r0 r (ids_distinct _ _ Hw) Hr0 Hr Hid)
        in Hc |- *.
      unfold coherent in *. cbn. destruct Hs as [Hs|Hs]; rewrite Hs in Hc; tauto.
    + unfold RecordingItem.handleTranscribe. by rewrite decide_False.
  - destruct (transcriptions (browser w) !! k) as [[id0 b]|] eqn:Hk.
    + destruct (step_settle w k env id0 b Hk) as [Hl _].
      cbn [step] in Hl. rewrite Hl.
      assert (∀ r0, r0 ∈ recordings (state w) → id r0 = id0 →
                    transcript r0 = None ∧ error r0 = None) as Hloading.
      { intros r0 Hr0 Hid.
        assert (status r0 = LOADING) as Hs.
        { apply Hw; [done|]. rewrite Hid. apply list_elem_of_fmap.
          exists (id0, b). split; [done|]. by apply list_elem_of_lookup_2 in Hk. }
        pose proof (proj1 (Forall_forall _ _) Hall r0 Hr0) as Hc.
        unfold coherent in Hc. by rewrite Hs in Hc. }
      unfold settle.
      destruct (GeminiService.transcribeAudio env b).2 as [text|reason] eqn:Hres.
      * apply transcribeAudio_text in Hres.
        unfold markSuccess. apply Forall_fmap, Forall_forall. intros r0 Hr0.
        pose proof (proj1 (Forall_forall _ _) Hall r0 Hr0) as Hc. cbn.
        case_decide as Hid; [|done].
        destruct (Hloading r0 Hr0 Hid) as [_ He].
        unfold coherent. cbn. eauto.
      * unfold markError. apply Forall_fmap, Forall_forall. intros r0 Hr0.
        pose proof (proj1 (Forall_forall _ _) Hall r0 Hr0) as Hc. cbn.
        case_decide as Hid; [|done].
        destruct (Hloading r0 Hr0 Hid) as [Ht _].
        unfold coherent. cbn. eauto.
    + unfold take_at. by rewrite Hk.
  - destruct (recordings (state w) !! i) as [r|] eqn:Hi; [|done].
    world w. cbn in *. apply Forall_forall. intros r0 [_ Hr0]%list_elem_of_filter.
    by apply (proj1 (Forall_forall _ _) Hall).
Qed.

Lemma reachable_coherent w :
  reachable w → Forall coherent (recordings (state w)).
Proof.
  induction 1 as [t0|w e Hw IH Hvalid]; [constructor|].
  apply step_coherent; [done|by apply reachable_consistent|done].
Qed.

(** X8.  In every reachable state the fields of a listed recording agree
    (a transcript, never empty, exactly on success; the fixed message
    exactly on error), and its item renders exactly one of the action area,
    the loading line and the transcript; the retry wording shows exactly on
    error. *)
Theorem item_shows_one_section w r :
  reachable w → r ∈ recordings (state w) →
  coherent r ∧
  ItemView.sections r
  = match status r with
    | IDLE => [ItemView.ActionArea "Транскрипция отсутствует." "Расшифровать"]
    | ERROR => [ItemView.ActionArea "Ошибка транскрипции." "Повторить"]
    | LOADING => [ItemView.LoadingState]
    | SUCCESS =>
        match transcript r with
        | Some text => [ItemView.TranscriptResult text]
        | None => []
        end
    end ∧
  length (ItemView.sections r) = 1%nat.
Proof.
  intros Hw%reachable_coherent Hr.
  pose proof (proj1 (Forall_forall _ _) Hw r Hr) as Hc.
  split; [done|]. unfold coherent in Hc. unfold ItemView.sections.
  destruct (status r); cbn.
  - done.
  - done.
  - destruct Hc as [(t & -> & Ht) _]. by destruct t.
  - done.
Qed.

Lemma item_shows_one_section_witness :
  reachable awaiting ∧
  ∃ r, r ∈ recordings (state awaiting) ∧
       ItemView.sections r = [ItemView.LoadingState].
Proof.
  assert (reachable awaiting) as Hreach.
  { apply run_reachable; [constructor|].
    apply (bool_decide_unpack _). vm_compute. exact I. }
  split; [exact Hreach|]. eexists. split; [left|].
  exact (proj1 (proj2 (item_shows_one_section awaiting _ Hreach
                         (list_elem_of_here _ _)))).
Defined.

(** ** A finished transcription *)

(** X9.  A recording whose transcription succeeded is never changed
    again: after any event it is still listed, identical, unless the event
    is the click on its own delete button. *)
Theorem finished_is_final w e i r :
  reachable w → valid e w →
  recordings (state w) !! i = Some r → status r = SUCCESS →
  e = ClickDelete i ∨ r ∈ recordings (state (step e w)).
Proof.
  intros Hw%reachable_consistent Hvalid Hi Hs.
  assert (r ∈ recordings (state w)) as Hr
    by by apply list_elem_of_lookup_2 in Hi.
  pose proof (step_change e w Hvalid) as Hc.
  destruct Hw as [Hids Hp Hload].
  set (l := recordings (state w)) in *.
  destruct Hc as [e|e r' Hs' Ht Hl Hpr|j r' b0 Hj Hs'|k env id0 b0 Hk|j r' Hj].
  - by right.
  - right. by right.
  - right. destruct (markLoading_rewrites (id r') l) as (f & -> & Hf).
    apply list_elem_of_fmap. exists r. split; [|done].
    symmetry. apply Hf. intros Hid.
    assert (r = r') as ->.
    { apply (same_id_same_recording l); [done..| |done].
      by apply list_elem_of_lookup_2 in Hj. }
    rewrite Hs in Hs'. by destruct Hs'.
  - right.
    destruct (settle_rewrites id0 (GeminiService.transcribeAudio env b0).2 l)
      as (f & -> & Hf).
    apply list_elem_of_fmap. exists r. split; [|done].
    symmetry. apply Hf. intros Hid.
    assert (status r = LOADING) as Hs'; [|by rewrite Hs in Hs'].
    apply Hload; [done|]. rewrite Hid. apply list_elem_of_fmap.
    exists (id0, b0). split; [done|]. by apply list_elem_of_lookup_2 in Hk.
  - destruct (decide (id r = id r')) as [Hid|Hne].
    + left. f_equal.
      assert (r = r') as <-.
      { apply (same_id_same_recording l); [done..| |done].
        by apply list_elem_of_lookup_2 in Hj. }
      eapply NoDup_lookup; [exact Hids| |];
        rewrite list_lookup_fmap; [by rewrite Hj|by rewrite Hi].
    + right. by apply list_elem_of_filter.
Qed.

(** A map that rewrites the recordings carrying the identifier of the
    [i]-th changes the [i]-th only. *)
Lemma rewrites_at (l : list Recording) i r s f :
  NoDup (id <$> l) → l !! i = Some r → rewrites (id r) s f →
  f <$> l = <[i := f r]> l.
Proof.
  intros Hdup Hi Hf. apply list_eq. intros j.
  rewrite list_lookup_fmap.
  destruct (decide (i = j)) as [<-|Hne].
  - rewrite list_lookup_insert_eq by by eapply lookup_lt_Some.
    by rewrite Hi.
  - rewrite list_lookup_insert_ne by done.
    destruct (l !! j) as [r0|] eqn:Hj; [|done]. cbn. f_equal.
    apply Hf. intros Hid. apply Hne.
    eapply NoDup_lookup; [exact Hdup| |];
      rewrite list_lookup_fmap; [by rewrite Hi|rewrite Hj; cbn; congruence].
Qed.

Lemma delete_last {A} (l : list A) x : delete (length l) (l ++ [x]) = l.
Proof. induction l as [|y l IH]; [done|]. simpl. by f_equal. Qed.

Lemma take_at_last {A} (l : list A) x :
  take_at (length l) (l ++ [x]) = Some (x, l).
Proof.
  unfold take_at. rewrite delete_last.
  by rewrite lookup_app_r, Nat.sub_diag by lia.
Qed.

(** X10.  Request and answer compose: in a reachable state, asking for
    the transcription of the [i]-th item (idle or failed) and then getting
    the text [text] back from [transcribeAudio] on its blob leaves the list
    as it was but for the [i]-th item, which is now successful, holds
    [text] and no error; and no call is awaited any more than before. *)
Theorem transcription_round_trip w i r env text :
  reachable w → recordings (state w) !! i = Some r →
  status r = IDLE ∨ status r = ERROR →
  (GeminiService.transcribeAudio env (blob r)).2 = Fulfilled text →
  let asked := step (ClickTranscribe i) w in
  let k := length (transcriptions (browser w)) in
  let answered := step (TranscriptionSettled k env) asked in
  transcriptions (browser asked) !! k = Some (id r, blob r) ∧
  recordings (state answered)
  = <[i := transcribed r text]> (recordings (state w)) ∧
  transcriptions (browser answered) = transcriptions (browser w).
Proof.
  intros Hreach Hi Hs Hres. cbn zeta.
  pose proof (reachable_consistent w Hreach) as Hw.
  destruct (step_request w i r Hw Hi Hs) as [Hl Hp].
  set (asked := step (ClickTranscribe i) w) in *.
  assert (transcriptions (browser asked) !! length (transcriptions (browser w))
          = Some (id r, blob r)) as Hk.
  { rewrite Hp. by rewrite lookup_app_r, Nat.sub_diag by lia. }
  split; [done|].
  destruct (step_settle asked _ env _ _ Hk) as [-> ->].
  rewrite Hres, Hl, Hp. split; [|apply delete_last].
  assert (transcript r = None) as Ht.
  { assert (coherent r) as Hc.
    { eapply Forall_forall; [by apply reachable_coherent|].
      by apply list_elem_of_lookup_2 in Hi. }
    unfold coherent in Hc. destruct Hs as [Hs|Hs]; rewrite Hs in Hc; tauto. }
  unfold settle, markSuccess, markLoading. rewrite <- list_fmap_compose.
  erewrite (rewrites_at _ i r SUCCESS); [|apply Hw|done|].
  - f_equal. cbn. destruct (decide (id r = id r)) as [_|[]]; [cbn|done].
    by destruct (decide (id r = id r)) as [_|[]].
  - intros r0. cbn. repeat case_decide; done.
Qed.

Lemma transcription_round_trip_witness :
  reachable listed ∧
  status <$> recordings (state listed) = [IDLE] ∧
  (transcript <$>
     recordings (state (step (TranscriptionSettled 0 online)
                          (step (ClickTranscribe 0) listed))))
  = [Some "привет"].
Proof.
  assert (reachable listed) as Hreach.
  { apply run_reachable; [constructor|].
    apply (bool_decide_unpack _). vm_compute. exact I. }
  split; [exact Hreach|]. split; [reflexivity|].
  destruct (transcription_round_trip listed 0 _ online "привет" Hreach
              eq_refl (or_introl eq_refl) eq_refl) as (_ & Hl & _).
  cbn zeta in Hl. change (length (transcriptions (browser listed))) with 0%nat in Hl.
  rewrite Hl. reflexivity.
Defined.

(** ** The session: recorder, timer and flag *)

Lemma session_ok_same w w' :
  intervals (browser w') = intervals (browser w) →
  nextInterval (browser w') = nextInterval (browser w) →
  (now (browser w) ≤ now (browser w'))%Z →
  isRecording (state w') = isRecording (state w) →
  mediaRecorderRef (refs w') = mediaRecorderRef (refs w) →
  timerRef (refs w') = timerRef (refs w) →
  recordingTime (state w') = recordingTime (state w) →
  session_ok w → session_ok w'.
Proof.
  intros Hi Hn Hnow Hrec Href Ht Htime [H0 H1 H2 H3 H4 H5 H6 H7].
  split; rewrite ?Hi, ?Hn, ?Hrec, ?Href, ?Ht, ?Htime; try done.
  eapply Forall_impl; [exact H3|]. cbn. intros. lia.
Qed.

Lemma step_session e w : valid e w → session_ok w → session_ok (step e w).
Proof.
  intros Hvalid Hs. destruct e; cbn [step].
  - apply (session_ok_same w); try done. world w. cbn in *. lia.
  - apply (session_ok_same w); by world w.
  - destruct (take_at k (userMediaCalls (browser w))) as [[t rest]|] eqn:Hk;
      [|done].
    destruct granted as [stream|]; [|apply (session_ok_same w); by world w].
    destruct Hs as [H0 H1 H2 H3 H4 H5 H6 H7]. world w. cbn in *.
    split; cbn.
    + lia.
    + apply Forall_app. split.
      * eapply Forall_impl; [exact H1|]. cbn. intros. lia.
      * constructor; [cbn; lia|constructor].
    + rewrite fmap_app. apply NoDup_app. split; [done|]. split.
      * intros x Hx [Hx'|[]%elem_of_nil]%elem_of_cons.
        apply list_elem_of_fmap in Hx as (iv & Heq & Hiv).
        apply (proj1 (Forall_forall _ _) H1) in Hiv. cbn in *. lia.
      * apply NoDup_singleton.
    + apply Forall_app. split; [done|]. constructor; [cbn; lia|constructor].
    + done.
    + intros _. exists next. split; [done|]. rewrite fmap_app.
      apply elem_of_app. right. left.
    + done.
    + done.
  - apply (session_ok_same w); try done; world w;
      unfold ondataavailable; by case_decide.
  - destruct (intervals (browser w) !! k) as [[t start]|] eqn:Hk; [|done].
    destruct Hs as [H0 H1 H2 H3 H4 H5 H6 H7].
    assert (start ≤ now (browser w))%Z as Hstart.
    { apply list_elem_of_lookup_2 in Hk.
      by apply (proj1 (Forall_forall _ _) H3) in Hk. }
    world w. cbn in *. split; cbn; try done.
    apply Qle_shift_div_l; [reflexivity|].
    rewrite Qmult_0_l. change 0%Q with (inject_Z 0). rewrite <- Zle_Qle. lia.
  - destruct Hs as [H0 H1 H2 H3 H4 H5 H6 H7]. world w. unfold stopRecording.
    cbn in *. destruct recorder as [mr|], isRec; try (by split). cbn.
    destruct (H5 eq_refl) as (t & -> & Ht).
    assert (t ≠ 0)%nat as Hne.
    { apply list_elem_of_fmap in Ht as (iv & -> & Hiv).
      apply (proj1 (Forall_forall _ _) H1) in Hiv. lia. }
    rewrite decide_True by done. cbn. split; cbn; try done.
    + apply Forall_forall. intros iv [_ Hiv]%list_elem_of_filter.
      by apply (proj1 (Forall_forall _ _) H1).
    + eapply sublist_NoDup; [exact H2|]. apply fmap_sublist, sublist_filter.
    + apply Forall_forall. intros iv [_ Hiv]%list_elem_of_filter.
      by apply (proj1 (Forall_forall _ _) H3).
  - destruct (stopEvents (browser w)) as [|mr rest] eqn:Hq; [done|].
    destruct Hs as [H0 H1 H2 H3 H4 H5 H6 H7]. world w. cbn in *.
    by split.
  - apply (session_ok_same w); try done; world w; by destruct file.
  - destruct (take_at k (metadataLoads (browser w))) as [[[file probe] rest]|];
      [|done].
    apply (session_ok_same w); try done; world w; by destruct o.
  - destruct (recordings (state w) !! i) as [r|]; [|done].
    unfold RecordingItem.handleTranscribe. case_decide; [|done].
    unfold handleTranscribe. destruct (List.find _ _); [|done].
    apply (session_ok_same w); by world w.
  - destruct (take_at k (transcriptions (browser w))) as [[[id0 b] rest]|];
      [|done].
    unfold handleTranscribe_resume.
    destruct (GeminiService.transcribeAudio env b).2;
      apply (session_ok_same w); by world w.
  - destruct (recordings (state w) !! i) as [r|]; [|done].
    apply (session_ok_same w); by world w.
Qed.

Lemma reachable_session w : reachable w → session_ok w.
Proof.
  induction 1 as [t0|w e Hw IH Hvalid]; [|by apply step_session].
  split; cbn; try done; constructor.
Qed.

(** X11.  In every reachable state the recording time is not negative,
    and no running interval was started after the current clock reading. *)
Theorem timer_never_negative w :
  reachable w →
  (0 <= recordingTime (state w))%Q ∧
  Forall (λ i, (i.2 ≤ now (browser w))%Z) (intervals (browser w)).
Proof. intros Hs%reachable_session. split; apply Hs. Qed.

Lemma timer_never_negative_witness :
  reachable (run capture (init 1000)) ∧
  (recordingTime (state (run capture (init 1000))) == 5)%Q ∧
  (0 <= recordingTime (state (run capture (init 1000))))%Q.
Proof.
  assert (reachable (run capture (init 1000))) as Hreach.
  { apply run_reachable; [constructor|].
    apply (bool_decide_unpack _). vm_compute. exact I. }
  split; [exact Hreach|]. split; [reflexivity|].
  exact (proj1 (timer_never_negative _ Hreach)).
Defined.

(** X12.  In every reachable state in which the page is recording, the
    stop button ends the session: the current recorder is asked to stop
    (one more [stop] event is due), the flag falls, the timer reference is
    cleared and its interval no longer runs; the list is untouched. *)
Theorem stop_ends_session w :
  reachable w → isRecording (state w) = true →
  let w' := step ClickStop w in
  ∃ mediaRecorder t,
    mediaRecorderRef (refs w) = Some mediaRecorder ∧
    timerRef (refs w) = Some t ∧
    stopEvents (browser w') = stopEvents (browser w) ++ [mediaRecorder] ∧
    isRecording (state w') = false ∧
    timerRef (refs w') = None ∧
    (t ∉ fst <$> intervals (browser w')) ∧
    recordings (state w') = recordings (state w).
Proof.
  intros [H0 H1 H2 H3 H4 H5 H6 H7]%reachable_session Hrec. cbn zeta.
  destruct (H4 Hrec) as [mr Hmr]. destruct (H5 Hrec) as (t & Ht & Hin).
  exists mr, t.
  assert (t ≠ 0)%nat as Hne.
  { apply list_elem_of_fmap in Hin as (iv & -> & Hiv).
    apply (proj1 (Forall_forall _ _) H1) in Hiv. lia. }
  world w. cbn in *. subst. unfold stopRecording. cbn.
  rewrite decide_True by done. cbn. repeat (split; [done|]).
  split; [|done].
  intros (iv & -> & [Hiv _]%list_elem_of_filter)%list_elem_of_fmap. done.
Qed.

Lemma stop_ends_session_witness :
  reachable (run capture (init 1000)) ∧
  isRecording (state (run capture (init 1000))) = true ∧
  isRecording (state (step ClickStop (run capture (init 1000)))) = false ∧
  intervals (browser (step ClickStop (run capture (init 1000)))) = [].
Proof.
  assert (reachable (run capture (init 1000))) as Hreach.
  { apply run_reachable; [constructor|].
    apply (bool_decide_unpack _). vm_compute. exact I. }
  split; [exact Hreach|]. split; [reflexivity|].
  destruct (stop_ends_session _ Hreach eq_refl)
    as (mr & t & _ & _ & _ & Hflag & _).
  split; [exact Hflag|reflexivity].
Defined.

(** X13.  [stopRecording] a second time does nothing. *)
Theorem stopRecording_idempotent w :
  stopRecording (stopRecording w) = stopRecording w.
Proof.
  world w. unfold stopRecording at 2. cbn.
  destruct recorder as [mr|], isRec; try reflexivity. cbn.
  destruct timer as [t|]; [case_decide|]; reflexivity.
Qed.

(** ** The object-URL store *)

(** X14.  A live object URL stays live through every event, except the
    URL of a duration probe when that probe settles: no URL of a recording
    is ever revoked. *)
Theorem only_the_probe_is_revoked e w u :
  is_Some (objectURLs (browser w) !! u) →
  is_Some (objectURLs (browser (step e w)) !! u) ∨
  ∃ k o uuid url file,
    e = MetadataSettled k o uuid url ∧
    metadataLoads (browser w) !! k = Some (file, u).
Proof.
  intros Hu. destruct e; cbn [step].
  - left. by world w.
  - left. by world w.
  - left. world w. cbn. destruct (take_at _ _) as [[? ?]|]; [|done].
    by destruct granted.
  - left. world w. unfold ondataavailable. by case_decide.
  - left. world w. cbn. by destruct (ivals !! k) as [[? ?]|].
  - left. world w. unfold stopRecording. cbn.
    destruct recorder, isRec; try done. cbn.
    destruct timer; [case_decide|]; done.
  - left. world w. cbn in *. destruct stops; [done|]. cbn.
    unfold URL.createObjectURL. apply lookup_insert_is_Some'; by right.
  - left. world w. destruct file; [|done]. cbn in *.
    unfold AudioUtils.getAudioDuration_begin, URL.createObjectURL.
    apply lookup_insert_is_Some'; by right.
  - unfold take_at.
    destruct (metadataLoads (browser w) !! k) as [[file probe]|] eqn:Hk;
      [|by left].
    destruct (decide (u = probe)) as [->|Hne]; [right; by eauto 10|].
    left. world w. cbn in *.
    destruct o; cbn; unfold URL.createObjectURL, URL.revokeObjectURL;
      (apply lookup_insert_is_Some'; right; by rewrite lookup_delete_ne).
  - left. destruct (recordings (state w) !! i); [|done].
    unfold RecordingItem.handleTranscribe. case_decide; [|done].
    unfold handleTranscribe. destruct (List.find _ _); by world w.
  - left. destruct (take_at _ _) as [[[? ?] ?]|]; [|done].
    unfold handleTranscribe_resume.
    destruct (GeminiService.transcribeAudio _ _).2; by world w.
  - left. destruct (recordings (state w) !! i); by world w.
Qed.

Lemma only_the_probe_is_revoked_witness :
  is_Some (objectURLs (browser listed) !! "blob:a") ∧
  is_Some (objectURLs (browser (step (ClickDelete 0) listed)) !! "blob:a").
Proof.
  assert (is_Some (objectURLs (browser listed) !! "blob:a")) as Hlive.
  { eexists. reflexivity. }
  split; [exact Hlive|].
  destruct (only_the_probe_is_revoked (ClickDelete 0) listed "blob:a" Hlive)
    as [H|(k & o & uuid & url & file & He & _)]; [exact H|discriminate He].
Defined.

(** ** An upload, from the choice of the file to the listed recording *)

(** X15.  Choosing no file does nothing.  Choosing a file lists nothing
    yet; once its metadata has loaded, or failed to load, the list has one
    new recording in front: idle, named after the file, holding the file,
    dated by the clock, with the duration reported ([0] when infinite or
    failed); its URL stands for the file and the probe's URL is revoked. *)
Theorem upload_lists_the_file w file probe o uuid url :
  let chosen := step (FileChosen (Some file) probe) w in
  let k := length (metadataLoads (browser w)) in
  let loaded := step (MetadataSettled k o uuid url) chosen in
  step (FileChosen None probe) w = w ∧
  recordings (state chosen) = recordings (state w) ∧
  recordings (state loaded)
  = uploaded file o uuid url (now (browser w)) :: recordings (state w) ∧
  objectURLs (browser loaded)
  = <[url := file_blob file]> (delete probe (objectURLs (browser w))) ∧
  metadataLoads (browser loaded) = metadataLoads (browser w).
Proof.
  cbn zeta. split; [done|]. split; [by world w|].
  world w. cbn. rewrite take_at_last. cbn.
  unfold AudioUtils.getAudioDuration_begin, URL.createObjectURL.
  destruct o as [[d|]|]; cbn; unfold URL.revokeObjectURL, URL.createObjectURL;
    rewrite delete_insert_eq; done.
Qed.

(** ** A capture, from the record button to the listed recording *)

Lemma run_app es1 es2 w : run (es1 ++ es2) w = run es2 (run es1 w).
Proof. apply foldl_app. Qed.

Lemma run_chunks chunks w :
  run (DataAvailable <$> chunks) w
  = set_chunksRef
      (chunksRef (refs w) ++ filter (λ d, 0 < size d)%nat chunks) w.
Proof.
  revert w. induction chunks as [|d chunks IH]; intros w.
  - world w. cbn. by rewrite app_nil_r.
  - change (run (DataAvailable <$> d :: chunks) w)
      with (run (DataAvailable <$> chunks) (step (DataAvailable d) w)).
    rewrite IH. cbn [step]. unfold ondataavailable. rewrite filter_cons.
    case_decide; world w; cbn; [by rewrite <- app_assoc|done].
Qed.

Lemma nonempty_chunks_bytes (chunks : list Blob) :
  concat (bytes <$> filter (λ d, 0 < size d)%nat chunks)
  = concat (bytes <$> chunks).
Proof.
  induction chunks as [|d chunks IH]; [done|].
  rewrite filter_cons. case_decide as Hd; cbn; [by rewrite IH|].
  rewrite IH. unfold size in Hd. by destruct (bytes d); [|cbn in Hd; lia].
Qed.

(** X16.  A capture composes: from a reachable state with no [stop]
    event due, clicking record, being granted the microphone, receiving
    chunks, clicking stop and having the [stop] event delivered puts one
    new idle recording in front of the list, of type ['audio/webm'], whose
    bytes are those of the chunks in order (empty chunks add nothing) and
    whose URL stands for it; the page is no longer recording, the time is
    back to [0], the stream is dropped and the session's timer is gone. *)
Theorem capture_lists_the_chunks w stream chunks uuid url :
  reachable w → stopEvents (browser w) = [] →
  let n := length (userMediaCalls (browser w)) in
  let w' := run (capture_session n stream chunks uuid url) w in
  ∃ r,
    recordings (state w') = r :: recordings (state w) ∧
    id r = uuid ∧ Types.url r = url ∧ timestamp r = now (browser w) ∧
    type (blob r) = "audio/webm" ∧
    bytes (blob r) = concat (bytes <$> chunks) ∧
    status r = IDLE ∧ transcript r = None ∧ error r = None ∧ name r = None ∧
    objectURLs (browser w') !! url = Some (blob r) ∧
    isRecording (state w') = false ∧
    recordingTime (state w') = 0%Q ∧
    mediaStream (state w') = None ∧
    timerRef (refs w') = None ∧
    intervals (browser w') = intervals (browser w) ∧
    stopEvents (browser w') = [].
Proof.
  intros [H0 H1 _ _ _ _ _ _]%reachable_session Hq. cbn zeta.
  unfold capture_session. rewrite !run_app, run_chunks.
  world w. cbn in *. subst stops. rewrite take_at_last. cbn.
  unfold stopRecording. cbn.
  rewrite decide_True by lia. cbn.
  eexists. split; [reflexivity|]. cbn.
  repeat (split; [reflexivity|]).
  split; [apply nonempty_chunks_bytes|].
  repeat (split; [reflexivity|]).
  split; [unfold URL.createObjectURL; apply lookup_insert_eq|].
  repeat (split; [reflexivity|]).
  split; [|reflexivity].
  rewrite filter_app, filter_cons_False, filter_nil, app_nil_r by (cbn; tauto).
  apply filter_all, Forall_forall. intros iv Hiv.
  apply (proj1 (Forall_forall _ _) H1) in Hiv. cbn. lia.
Qed.

Lemma capture_lists_the_chunks_witness :
  reachable listed ∧ stopEvents (browser listed) = [] ∧
  (λ r, (id r, bytes (blob r))) <$>
    recordings (state (run (capture_session 0 7%nat
                              [sample_chunk; sample_chunk] "b" "blob:b") listed))
  = [("b", [Byte.x01; Byte.x02; Byte.x01; Byte.x02]); ("a", [Byte.x03])].
Proof.
  assert (reachable listed) as Hreach.
  { apply run_reachable; [constructor|].
    apply (bool_decide_unpack _). vm_compute. exact I. }
  split; [exact Hreach|]. split; [reflexivity|].
  destruct (capture_lists_the_chunks listed 7%nat [sample_chunk; sample_chunk]
              "b" "blob:b" Hreach eq_refl)
    as (r & Hl & Hid & _ & _ & _ & Hbytes & _).
  cbn zeta in Hl.
  change (length (userMediaCalls (browser listed))) with 0%nat in Hl.
  rewrite Hl. cbn [fmap list_fmap]. rewrite Hid, Hbytes. reflexivity.
Defined.

Lemma finished_is_final_witness :
  reachable finished ∧ valid (ClickTranscribe 0) finished ∧
  ∃ r, recordings (state finished) !! 0%nat = Some r ∧
       status r = SUCCESS ∧
       r ∈ recordings (state (step (ClickTranscribe 0) finished)).
Proof.
  assert (reachable finished) as Hreach.
  { apply run_reachable; [constructor|].
    apply (bool_decide_unpack _). vm_compute. exact I. }
  split; [exact Hreach|]. split; [exact I|].
  eexists. split; [reflexivity|]. split; [reflexivity|].
  destruct (finished_is_final finished (ClickTranscribe 0) 0 _ Hreach I
              eq_refl eq_refl) as [He|Hin]; [discriminate He|exact Hin].
Defined.
